(** * azure-resourcemanager-exporter: port-scan orchestrator and collection cycle

    A shallow embedding of [portscanner.go] (the scan cache, its eviction,
    persistence and publication, and the scan pass) and of the AzureRM
    metrics collection cycle ([runMetricsCollectionAzureRm] and its
    collectors), with the properties of the specification stated over it.

    Conventions of the embedding.
    - A Go [map[string]V] is a [gmap string V]. The maps of a [Portscanner]
      are allocated, as [Init] leaves them; the one place that leaves a nil
      map is [CacheLoad] of a document with a field at [null], and the nil
      map is then the empty map, as which it reads, ranges and deletes.
    - A [range] over a map visits the entries in an order Go leaves
      unspecified and that may change from one loop to the next; the order
      is drawn from a [RangeOracle], indexed by a counter of the loops run.
    - The callbacks of a [Portscanner] are opaque observers: a call is
      recorded as an [Event] in the log of the [World].
    - A pointer is an [option]; [float64] is an IEEE-754 binary64 datum.
    - A [network.PublicIPAddress] reads its address, allocation method and
      version through an embedded pointer to its properties. The addresses
      a [Portscanner] holds have them (the record [PublicIPAddress]); a
      value [ListAll] lists may lack them (an [option PublicIPAddress]).
    - A panic is an [Outcome]; nothing in the sources recovers one.
    - [sync.Mutex] sections are atomic steps of the sequential model. *)

From Stdlib Require Import ZArith SpecFloat Ascii.
From stdpp Require Import base gmap strings list fin_maps pretty.


(** ** Go values *)

Module Float64.
(** [float64]: binary64, 53 bits of precision, exponents below 1024. *)
Definition t : Type := spec_float.
Definition prec : Z := 53.
Definition emax : Z := 1024.

(** The conversion [float64(n)] of an integer (round to nearest even). *)
Definition of_Z (n : Z) : t := binary_normalize prec emax n 0 false.

Definition zero : t := of_Z 0.
Definition one : t := of_Z 1.

#[global] Instance eq_dec : EqDecision spec_float.
Proof. solve_decision. Defined.
End Float64.

Abbreviation float64 := spec_float.

(** [to.String] of go-autorest: the string behind a pointer, [""] for nil. *)
Definition to_String (s : option string) : string := default "" s.

(** [strconv.Itoa] *)
Definition Itoa (n : Z) : string := pretty n.

(** [prometheus.Labels] *)
Abbreviation Labels := (gmap string string).

(** The part of [network.PublicIPAddress] the program reads; the promoted
    fields of the embedded properties are fields of the record. *)
Record PublicIPAddress := {
  IPAddress : option string;
  ID : option string;
  Location : option string;
  PublicIPAllocationMethod : string;
  PublicIPAddressVersion : string;
}.

#[global] Instance PublicIPAddress_eq_dec : EqDecision PublicIPAddress.
Proof. solve_decision. Defined.

(** ** portscanner.go: data *)

Record PortscannerResult := {
  IpAddress : string;
  ResultLabels : Labels;
  Value : float64;
}.

#[global] Instance PortscannerResult_eq_dec : EqDecision PortscannerResult.
Proof. solve_decision. Defined.

Record Portscanner := {
  List : gmap string (list PortscannerResult);
  PublicIps : gmap string PublicIPAddress;
  Enabled : bool;
}.

(** A call of one of [Portscanner.Callbacks], or a line of [c.logger]. *)
Inductive Event :=
  | StartupScan
  | FinishScan
  | StartScanIpAdress (pip : PublicIPAddress)
  | FinishScanIpAdress (pip : PublicIPAddress) (elapsed : float64)
  | ResultCleanup
  | ResultPush (result : PortscannerResult)
  | LogError (msg : string)
  | LogPanic (msg : string).

#[global] Instance Event_eq_dec : EqDecision Event.
Proof. solve_decision. Defined.

(** The files [os.Open] finds, and the paths [ioutil.WriteFile] fails on. *)
Record FileSystem := {
  contents : gmap string string;
  unwritable : gset string;
}.

(** The portscanner [c] together with what its methods act upon. *)
Record World := {
  scanner : Portscanner;
  tick : nat;
  log : list Event;
  disk : FileSystem;
}.

Definition with_scanner (c : Portscanner) (w : World) : World :=
  {| scanner := c; tick := tick w; log := log w; disk := disk w |}.

Definition with_List (l : gmap string (list PortscannerResult))
    (c : Portscanner) : Portscanner :=
  {| List := l; PublicIps := PublicIps c; Enabled := Enabled c |}.

Definition with_PublicIps (p : gmap string PublicIPAddress)
    (c : Portscanner) : Portscanner :=
  {| List := List c; PublicIps := p; Enabled := Enabled c |}.

Definition with_Enabled (b : bool) (c : Portscanner) : Portscanner :=
  {| List := List c; PublicIps := PublicIps c; Enabled := b |}.

Definition emit (e : Event) (w : World) : World :=
  {| scanner := scanner w; tick := tick w; log := log w ++ [e]; disk := disk w |}.

(** The events logged between [w] and a later [w']. *)
Definition emitted_since (w w' : World) : list Event :=
  drop (length (log w)) (log w').

(** The results handed to [Callbacks.ResultPush], in order. *)
Definition pushed (es : list Event) : list PortscannerResult :=
  omap (λ e, match e with ResultPush r => Some r | _ => None end) es.

(** The addresses handed to [Callbacks.StartScanIpAdress], in order. *)
Definition started (es : list Event) : list PublicIPAddress :=
  omap (λ e, match e with StartScanIpAdress pip => Some pip | _ => None end) es.

(** How many times [result] was handed to [Callbacks.ResultPush]. *)
Definition emissions (result : PortscannerResult) (es : list Event) : nat :=
  length (filter (λ r, r = result) (pushed es)).

(** From [w] to [w'] the log has only grown, and [result] was handed to
    [Callbacks.ResultPush] at least [n] times on the way. *)
Definition pushes_between (result : PortscannerResult) (n : nat) (w w' : World) : Prop :=
  ∃ es, log w' = log w ++ es ∧ n ≤ emissions result es.

(** The world [w] with the gate of its portscanner set to [b]. *)
Definition gate (b : bool) (w : World) : World :=
  with_scanner (with_Enabled b (scanner w)) w.

(** ** Panics and state *)

(** How a call ends: it returns [a] in state [s], or it panics with [err]
    in state [s]. *)
Inductive Outcome (S A : Type) :=
  | Done (a : A) (s : S)
  | Panicked (err : string) (s : S).
Arguments Done {S A} a s.
Arguments Panicked {S A} err s.

Definition Go (S A : Type) : Type := S → Outcome S A.

#[global] Instance Go_ret {S} : MRet (Go S) := λ A a s, Done a s.

#[global] Instance Go_bind {S} : MBind (Go S) := λ A B k m s,
  match m s with
  | Done a s' => k a s'
  | Panicked err s' => Panicked err s'
  end.

Definition panic {S A} (err : string) : Go S A := λ s, Panicked err s.

Definition modify {S} (f : S → S) : Go S unit := λ s, Done () (f s).

(** [*p]: a nil pointer panics. *)
Definition nil_dereference : string :=
  "runtime error: invalid memory address or nil pointer dereference".

Definition deref {S A} (p : option A) : Go S A :=
  match p with
  | Some a => mret a
  | None => panic nil_dereference
  end.

(** [for _, x := range l { body }] over a slice. *)
Fixpoint for_each {S A} (l : list A) (body : A → Go S unit) : Go S unit :=
  match l with
  | [] => mret ()
  | x :: l => body x ;; for_each l body
  end.

(** The same loop, with a local variable [b] carried through. *)
Fixpoint fold_each {S A B} (l : list A) (b : B) (body : B → A → Go S B) : Go S B :=
  match l with
  | [] => mret b
  | x :: l => b' ← body b x; fold_each l b' body
  end.

(** What is left when the goroutines are gone. A panic that no deferred
    function of its goroutine recovers ends the program, whichever goroutine
    it started in, and the state with it. *)
Definition survives {S A} (o : Outcome S A) : option S :=
  match o with
  | Done _ s => Some s
  | Panicked _ _ => None
  end.

(** ** Map iteration order *)

(** The language specification on [range] over a map: the iteration order
    is not specified and is not guaranteed to be the same from one
    iteration to the next. A [RangeOracle] gives the order of each loop: the
    loop that is [n]-th to run takes the entries of its map in the order
    [shuffle n], which is some permutation of them. *)
Record RangeOracle := {
  shuffle : ∀ A : Type, nat → list A → list A;
  shuffle_perm : ∀ A n (l : list A), shuffle A n l ≡ₚ l;
}.
Arguments shuffle _ {A} _ _.

(** [for k, v := range m]: the entries, in the order of this loop. *)
Definition range_entries (ro : RangeOracle) {V : Type}
    (m : gmap string V) (w : World) : list (string * V) :=
  shuffle ro (tick w) (map_to_list m).

Definition next_range (w : World) : World :=
  {| scanner := scanner w; tick := S (tick w); log := log w; disk := disk w |}.

(** ** portscanner.go: the cache *)

Section portscanner.
Context (ro : RangeOracle).

(** [Init]; the callbacks it installs do nothing. *)
Definition Init (w : World) : World :=
  with_scanner {| List := ∅; PublicIps := ∅; Enabled := false |} w.

(** [SetAzurePublicIpList] *)
Definition SetAzurePublicIpList (pipList : list PublicIPAddress) (w : World) : World :=
  let ipAddressList :=
    foldl (λ m pip, <[to_String (IPAddress pip) := pip]> m) ∅ pipList in
  with_scanner (with_PublicIps ipAddressList (scanner w)) w.

(** [Enable] *)
Definition Enable (w : World) : World :=
  with_scanner (with_Enabled true (scanner w)) w.

(** [pushResults] *)
Definition pushResults (w : World) : World :=
  let entries := range_entries ro (List (scanner w)) w in
  foldl (λ w '(_, results), foldl (λ w result, emit (ResultPush result) w) w results)
    (next_range w) entries.

(** [addResults] *)
Definition addResults (pip : PublicIPAddress) (results : list PortscannerResult)
    (w : World) : World :=
  let ipAddress := to_String (IPAddress pip) in
  let c := scanner w in
  pushResults (with_scanner (with_List (<[ipAddress := results]> (List c)) c) w).

(** The first loop of [Cleanup]. *)
Definition orphanedIpList (c : Portscanner)
    (entries : list (string * list PortscannerResult)) : list string :=
  foldl (λ orphaned '(ipAddress, _),
           match PublicIps c !! ipAddress with
           | Some _ => orphaned
           | None => orphaned ++ [ipAddress]
           end) [] entries.

(** [Cleanup] *)
Definition Cleanup (w : World) : World :=
  let c := scanner w in
  let orphaned := orphanedIpList c (range_entries ro (List c) w) in
  let l := foldl (λ l ipAddress, delete ipAddress l) (List c) orphaned in
  with_scanner (with_List l c) (next_range w).

(** [Publish] *)
Definition Publish (w : World) : World :=
  pushResults (emit ResultCleanup w).

End portscanner.

(** ** portscanner.go: the scan pass *)

(** [opts], as far as the two source files read it. *)
Record Opts := {
  Portscan_Timeout : Z;
  Portscan_Parallel : Z;
  Portscan_Threads : Z;
  AzureLocation : list string;
  AzureResourceGroupTags : list string;
}.

Record Portrange := {
  FirstPort : Z;
  LastPort : Z;
}.

(** [time.Duration] is an [int64]; its products wrap. *)
Definition int64 (n : Z) : Z := (n + 2 ^ 63) mod 2 ^ 64 - 2 ^ 63.

Definition time_Second : Z := 1000000000.

(** What the scan of an address meets: the open ports
    [scanner.NewPortScanner(ip, timeout, threads).GetOpenedPort(first, last)]
    reports, and the seconds [time.Now().Unix()] advances over the scan. *)
Record Network := {
  GetOpenedPort : string → Z → Z → Z → Z → list Z;
  scan_seconds : string → Z;
}.

Section scan.
Context (ro : RangeOracle) (opts : Opts) (portscanPortRange : list Portrange)
  (net : Network).

(** [scanIp]; the early return leaves both named results at their zero
    values. *)
Definition scanIp (pip : PublicIPAddress) (portscanTimeout : Z) (c : Portscanner)
    : list PortscannerResult * float64 :=
  let ipAddress := to_String (IPAddress pip) in
  match PublicIps c !! ipAddress with
  | None => ([], Float64.zero)
  | Some _ =>
    let result :=
      foldl (λ result portrange,
        let openedPorts :=
          GetOpenedPort net ipAddress portscanTimeout (Portscan_Threads opts)
            (FirstPort portrange) (LastPort portrange) in
        foldl (λ result port,
          result ++ [ {| IpAddress := ipAddress;
                         ResultLabels := {[ "ipAddress" := ipAddress;
                                            "protocol" := "TCP";
                                            "port" := Itoa port;
                                            "description" := "" ]};
                         Value := Float64.one |} ]) result openedPorts)
        [] portscanPortRange in
    (result, Float64.of_Z (int64 (scan_seconds net ipAddress)))
  end.

(** The body of one goroutine of [Start]. *)
Definition scanTask (pip : PublicIPAddress) (portscanTimeout : Z) (w : World) : World :=
  let w := emit (StartScanIpAdress pip) w in
  let '(results, elapsed) := scanIp pip portscanTimeout (scanner w) in
  let w := emit (FinishScanIpAdress pip elapsed) w in
  addResults ro pip results w.

(** [Start]. The goroutines are taken one after the other, in the order
    of the loop that spawns them: this is how they run when
    [opts.Portscan.Parallel] is 1, and for a larger pool it is the order in
    which they reach [addResults], with the two callbacks of each goroutine
    drawn next to it. *)
Definition Start (w : World) : World :=
  let portscanTimeout := int64 (Portscan_Timeout opts * time_Second) in
  let w := emit StartupScan w in
  let w := Publish ro (Cleanup ro w) in
  let pips := range_entries ro (PublicIps (scanner w)) w in
  let w := foldl (λ w '(_, pip), scanTask pip portscanTimeout w) (next_range w) pips in
  let w := Publish ro (Cleanup ro w) in
  emit FinishScan w.

End scan.

(** ** portscanner.go: persistence *)

(** What a JSON object holds for a [Portscanner]: for each of the two
    exported, untagged fields, the values the object gives it, in the order
    of the document, each [null] ([None]) or an object ([Some] of its
    entries). An object without the field gives it no value, and so does a
    value of a type the field cannot take, which the decoder skips. *)
Record Snapshot := {
  snap_List : list (option (gmap string (list PortscannerResult)));
  snap_PublicIps : list (option (gmap string PublicIPAddress));
}.

(** [encoding/json], for the type [Portscanner]. [json_Unmarshal] gives what
    [json.Unmarshal(jsonContent, &c)] decodes and the error it returns, if
    any: [None] for the document [null], which sets the pointer [c] to nil,
    and [Some] of what there is to store in the struct [c] points to for
    every other document (nothing, when the document is not an object or
    not JSON at all). [json_Marshal] gives the bytes [json.Marshal] returns
    ([CacheSave] drops its error). *)
Record Json := {
  json_Unmarshal : string → option Snapshot * option string;
  json_Marshal : Snapshot → string;
}.

(** The fields [json.Marshal(c)] writes. *)
Definition exported (c : Portscanner) : Snapshot :=
  {| snap_List := [Some (List c)]; snap_PublicIps := [Some (PublicIps c)] |}.

(** A value of the document stored into a map field. The package
    documentation: the JSON null value unmarshals into a map by setting it
    to nil; to unmarshal a JSON object into a map, Unmarshal allocates a
    new map if the map is nil, and otherwise reuses the existing map,
    keeping existing entries, and then stores the key-value pairs of the
    JSON object into the map. So [null] drops every entry; the entries of
    an object win, and the entries under keys the object does not have
    stay. *)
Definition store {V : Type} (m : gmap string V) (value : option (gmap string V))
    : gmap string V :=
  match value with
  | None => ∅
  | Some entries => entries ∪ m
  end.

(** [json.Unmarshal(jsonContent, &c)] for a document other than [null]: it
    follows the pointer [c] and decodes into the struct it points to, one
    value of the document after the other. A field the document lacks is
    left as it is. *)
Definition decode_into (snap : Snapshot) (c : Portscanner) : Portscanner :=
  {| List := foldl store (List c) (snap_List snap);
     PublicIps := foldl store (PublicIps c) (snap_PublicIps snap);
     Enabled := Enabled c |}.


Definition open_error (path : string) : string :=
  "open " +:+ path +:+ ": no such file or directory".

Definition write_error (path : string) : string :=
  "open " +:+ path +:+ ": permission denied".

Section persistence.
Context (ro : RangeOracle) (json : Json).

(** [CacheLoad]. The file is read whole ([ioutil.ReadAll], its error
    dropped). After the document [null] the pointer [c] is nil, and the next
    read through it ([c.logger] if there is an error to report, [c.mux]
    otherwise) is a nil pointer dereference: the portscanner the caller
    holds is as it was, and nothing is logged. This panic and the one on
    [os.Open] leave the mutex locked. *)
Definition CacheLoad (path : string) : Go World unit := λ w,
  match contents (disk w) !! path with
  | None =>
    let err := open_error path in
    Panicked err (emit (LogPanic err) w)
  | Some jsonContent =>
    match json_Unmarshal json jsonContent with
    | (None, _) => Panicked nil_dereference w
    | (Some snap, err) =>
      let w := with_scanner (decode_into snap (scanner w)) w in
      let w := match err with
               | Some err => emit (LogError ("failed to load portscanner cache: " +:+ err)) w
               | None => w
               end in
      Done () (Publish ro (Cleanup ro w))
    end
  end.

(** [CacheSave]; the panic on [ioutil.WriteFile] leaves [c.mux] locked. *)
Definition CacheSave (path : string) : Go World unit := λ w,
  let jsonData := json_Marshal json (exported (scanner w)) in
  if decide (path ∈ unwritable (disk w)) then
    let err := write_error path in
    Panicked err (emit (LogPanic err) w)
  else
    Done () {| scanner := scanner w; tick := tick w; log := log w;
               disk := {| contents := <[path := jsonData]> (contents (disk w));
                          unwritable := unwritable (disk w) |} |}.

End persistence.

(** ** The metrics registry *)

(** The gauge vectors of the collection cycle (the package variables). *)
Inductive GaugeName :=
  | prometheusSubscription
  | prometheusResourceGroup
  | prometheusPublicIp
  | prometheusApiQuota
  | prometheusQuota
  | prometheusQuotaCurrent
  | prometheusQuotaLimit.

#[global] Instance GaugeName_eq_dec : EqDecision GaugeName.
Proof. solve_decision. Defined.

(** A [*prometheus.GaugeVec]: the value of each label set that was set. *)
Abbreviation GaugeVec := (gmap Labels float64).

Record Registry := {
  vec_Subscription : GaugeVec;
  vec_ResourceGroup : GaugeVec;
  vec_PublicIp : GaugeVec;
  vec_ApiQuota : GaugeVec;
  vec_Quota : GaugeVec;
  vec_QuotaCurrent : GaugeVec;
  vec_QuotaLimit : GaugeVec;
  errorLog : list string;
}.

(** The vector a package variable points to. *)
Definition vec (r : Registry) (g : GaugeName) : GaugeVec :=
  match g with
  | prometheusSubscription => vec_Subscription r
  | prometheusResourceGroup => vec_ResourceGroup r
  | prometheusPublicIp => vec_PublicIp r
  | prometheusApiQuota => vec_ApiQuota r
  | prometheusQuota => vec_Quota r
  | prometheusQuotaCurrent => vec_QuotaCurrent r
  | prometheusQuotaLimit => vec_QuotaLimit r
  end.

Definition update_vec (g : GaugeName) (f : GaugeVec → GaugeVec) (r : Registry) : Registry :=
  let upd g' := if decide (g' = g) then f (vec r g') else vec r g' in
  {| vec_Subscription := upd prometheusSubscription;
     vec_ResourceGroup := upd prometheusResourceGroup;
     vec_PublicIp := upd prometheusPublicIp;
     vec_ApiQuota := upd prometheusApiQuota;
     vec_Quota := upd prometheusQuota;
     vec_QuotaCurrent := upd prometheusQuotaCurrent;
     vec_QuotaLimit := upd prometheusQuotaLimit;
     errorLog := errorLog r |}.

(** [g.Reset()] *)
Definition Reset (g : GaugeName) : Go Registry unit :=
  modify (update_vec g (λ _, ∅)).

(** [g.With(labels).Set(v)] *)
Definition With_Set (g : GaugeName) (labels : Labels) (v : float64) : Go Registry unit :=
  modify (update_vec g (<[labels := v]>)).

(** [g.With(labels)] on its own, where the argument of [Set] can panic
    after [With] has returned: the sample of the label set is created at 0
    when it is not there. *)
Definition With (g : GaugeName) (labels : Labels) : Go Registry unit :=
  modify (update_vec g (λ samples,
    match samples !! labels with
    | Some _ => samples
    | None => <[labels := Float64.zero]> samples
    end)).

(** [ErrorLogger.Error(msg)] *)
Definition ErrorLogger_Error (msg : string) : Go Registry unit :=
  modify (λ r,
    {| vec_Subscription := vec_Subscription r;
       vec_ResourceGroup := vec_ResourceGroup r;
       vec_PublicIp := vec_PublicIp r;
       vec_ApiQuota := vec_ApiQuota r;
       vec_Quota := vec_Quota r;
       vec_QuotaCurrent := vec_QuotaCurrent r;
       vec_QuotaLimit := vec_QuotaLimit r;
       errorLog := errorLog r ++ [msg] |}).

(** [initMetricsAzureRm]: the label names each gauge vector is declared
    with. [prefixSlice] is not among the sources and is taken as it comes. *)
Definition initMetricsAzureRm (prefixSlice : string → list string → list string)
    (opts : Opts) (AZURE_RESOURCEGROUP_TAG_PREFIX : string) (g : GaugeName)
    : list string :=
  match g with
  | prometheusSubscription =>
    ["subscriptionID"; "subscriptionName"; "spendingLimit"; "quotaID";
     "locationPlacementID"]
  | prometheusResourceGroup =>
    ["subscriptionID"; "resourceGroup"; "location"]
    ++ prefixSlice AZURE_RESOURCEGROUP_TAG_PREFIX (AzureResourceGroupTags opts)
  | prometheusPublicIp =>
    ["subscriptionID"; "resourceGroup"; "location"; "ipAddress";
     "ipAllocationMethod"; "ipAdressVersion"]
  | prometheusApiQuota => ["subscriptionID"; "scope"; "type"]
  | prometheusQuota => ["subscriptionID"; "location"; "scope"; "quota"; "quotaName"]
  | prometheusQuotaCurrent => ["subscriptionID"; "location"; "scope"; "quota"]
  | prometheusQuotaLimit => ["subscriptionID"; "location"; "scope"; "quota"]
  end.

(** ** The provider API *)

Inductive Result (A : Type) :=
  | Ok (a : A)
  | Err (err : string).
Arguments Ok {A} a.
Arguments Err {A} err.

Record SubscriptionPolicies := {
  SpendingLimit : string;
  QuotaID : option string;
  LocationPlacementID : option string;
}.

Record Subscription := {
  SubscriptionID : option string;
  DisplayName : option string;
  Policies : option SubscriptionPolicies;
  Header : gmap string string;
}.

Record Group := {
  GroupName : option string;
  GroupLocation : option string;
  Tags : gmap string (option string);
}.

Record UsageName := {
  NameValue : option string;
  LocalizedValue : option string;
}.

Record Usage := {
  Name : option UsageName;
  CurrentValue : option Z;
  Limit : option Z;
}.

(** The listing calls of the clients, by subscription (and location). A
    [network.PublicIPAddress] embeds a pointer to its properties format,
    through which [IPAddress], [PublicIPAllocationMethod] and
    [PublicIPAddressVersion] are read: a value [ListAll] lists is [None]
    when that pointer is nil, and [Some] of the address with its properties
    when it is set. *)
Record AzureApi := {
  subscriptions_Get : string → Result Subscription;
  groups_ListComplete : string → Result (option (list Group));
  publicIPAddresses_ListAll : string → Result (list (option PublicIPAddress));
  compute_usage_List : string → string → Result (list Usage);
  storage_usage_List : string → Result (option (list Usage));
}.

(** [resourceGroupFromResourceIdRegExp.FindStringSubmatch]: the expression
    matches the first [/resourceGroups/] and captures what follows it, up
    to the next slash. *)
Fixpoint after_first (needle s : string) : option string :=
  if String.prefix needle s then
    Some (String.substring (String.length needle) (String.length s) s)
  else
    match s with
    | EmptyString => None
    | String _ s' => after_first needle s'
    end.

Fixpoint up_to_slash (s : string) : string :=
  match s with
  | EmptyString => EmptyString
  | String c s' => if decide (c = "/"%char) then EmptyString else String c (up_to_slash s')
  end.

Definition FindStringSubmatch (s : string) : list string :=
  match after_first "/resourceGroups/" s with
  | Some rest => [ "/resourceGroups/" +:+ up_to_slash rest; up_to_slash rest ]
  | None => []
  end.

Definition index_out_of_range : string := "runtime error: index out of range".

(** The goroutines of [runMetricsCollectionAzureRm] that collect the
    public addresses send their lists over an unbuffered channel, and the
    lists are received in the order in which the goroutines get to send,
    which the scheduler decides: [arrival] gives the order of a cycle, some
    permutation of the lists sent. *)
Record Schedule := {
  arrival : ∀ A : Type, list A → list A;
  arrival_perm : ∀ A (l : list A), arrival A l ≡ₚ l;
}.
Arguments arrival _ {A} _.

(** ** The collectors *)

Section collectors.
Context (opts : Opts) (AZURE_RESOURCEGROUP_TAG_PREFIX : string)
  (ParseFloat : string → option float64) (api : AzureApi) (sched : Schedule).

(** [probeProcessHeader]; [Header.Get] gives [""] for a header that is not
    there. *)
Definition probeProcessHeader (response : gmap string string) (header : string)
    (labels : Labels) : Go Registry unit :=
  let val := default "" (response !! header) in
  if decide (val ≠ "") then
    match ParseFloat val with
    | Some valFloat => With_Set prometheusApiQuota labels valFloat
    | None => ErrorLogger_Error ("Failed to parse value '" +:+ val +:+ "':")
    end
  else mret ().

Definition ratelimit (subscriptionId scope type : string) : Labels :=
  {[ "subscriptionID" := subscriptionId; "scope" := scope; "type" := type ]}.

(** [collectAzureSubscription] *)
Definition collectAzureSubscription (subscriptionId : string) : Go Registry unit :=
  match subscriptions_Get api subscriptionId with
  | Err err => panic err
  | Ok sub =>
    id ← deref (SubscriptionID sub);
    name ← deref (DisplayName sub);
    policies ← deref (Policies sub);
    quotaID ← deref (QuotaID policies);
    locationPlacementID ← deref (LocationPlacementID policies);
    With_Set prometheusSubscription
      {[ "subscriptionID" := id;
         "subscriptionName" := name;
         "spendingLimit" := SpendingLimit policies;
         "quotaID" := quotaID;
         "locationPlacementID" := locationPlacementID ]} Float64.one ;;
    probeProcessHeader (Header sub) "x-ms-ratelimit-remaining-subscription-reads"
      (ratelimit subscriptionId "subscription" "read") ;;
    probeProcessHeader (Header sub) "x-ms-ratelimit-remaining-subscription-resource-requests"
      (ratelimit subscriptionId "subscription" "resource-requests") ;;
    probeProcessHeader (Header sub) "x-ms-ratelimit-remaining-subscription-resource-entities-read"
      (ratelimit subscriptionId "subscription" "resource-entities-read") ;;
    probeProcessHeader (Header sub) "x-ms-ratelimit-remaining-tenant-reads"
      (ratelimit subscriptionId "tenant" "read") ;;
    probeProcessHeader (Header sub) "x-ms-ratelimit-remaining-tenant-resource-requests"
      (ratelimit subscriptionId "tenant" "resource-requests") ;;
    probeProcessHeader (Header sub) "x-ms-ratelimit-remaining-tenant-resource-entities-read"
      (ratelimit subscriptionId "tenant" "resource-entities-read")
  end.

(** [collectAzureResourceGroup] *)
Definition collectAzureResourceGroup (subscriptionId : string) : Go Registry unit :=
  match groups_ListComplete api subscriptionId with
  | Err err => panic err
  | Ok resourceGroupResult =>
    items ← deref resourceGroupResult;
    for_each items (λ item,
      name ← deref (GroupName item);
      location ← deref (GroupLocation item);
      rgLabels ← fold_each (AzureResourceGroupTags opts)
        ({[ "subscriptionID" := subscriptionId;
            "resourceGroup" := name;
            "location" := location ]} : Labels)
        (λ rgLabels rgTag,
           let rgTabLabel := AZURE_RESOURCEGROUP_TAG_PREFIX +:+ rgTag in
           match Tags item !! rgTag with
           | Some tag => v ← deref tag; mret (<[rgTabLabel := v]> rgLabels)
           | None => mret (<[rgTabLabel := ""]> rgLabels)
           end);
      With_Set prometheusResourceGroup rgLabels Float64.one)
  end.

(** [collectAzurePublicIp]; the first thing the loop reads of a value,
    [val.IPAddress], goes through the pointer to its properties. *)
Definition collectAzurePublicIp (subscriptionId : string) : Go Registry (list string) :=
  match publicIPAddresses_ListAll api subscriptionId with
  | Err err => panic err
  | Ok list =>
    fold_each list [] (λ ipAddressList val,
      val ← deref val;
      let '(ipAddress, gaugeValue, ipAddressList) :=
        match IPAddress val with
        | Some ip => (ip, Float64.one, ipAddressList ++ [ip])
        | None => ("not allocated", Float64.zero, ipAddressList)
        end in
      id ← deref (ID val);
      let rgSubMatch := FindStringSubmatch id in
      resourceGroup ←
        (if decide (1 ≤ length rgSubMatch) then
           match rgSubMatch !! 1 with
           | Some g => mret g
           | None => panic index_out_of_range
           end
         else mret "");
      location ← deref (Location val);
      With_Set prometheusPublicIp
        {[ "subscriptionID" := subscriptionId;
           "resourceGroup" := resourceGroup;
           "location" := location;
           "ipAddress" := ipAddress;
           "ipAllocationMethod" := PublicIPAllocationMethod val;
           "ipAdressVersion" := PublicIPAddressVersion val ]} gaugeValue ;;
      mret ipAddressList)
  end.

(** The body of the inner loop of the three usage collectors. In
    [g.With(labels).Set(float64( *val.CurrentValue))] the call of [With] comes
    before the pointer is read: the sample is there, at 0 if it is new, when
    the nil pointer panics. *)
Definition setQuota (subscriptionId location scope : string) (val : Usage)
    : Go Registry unit :=
  name ← deref (Name val);
  quota ← deref (NameValue name);
  let labels : Labels :=
    {[ "subscriptionID" := subscriptionId; "location" := location;
       "scope" := scope; "quota" := quota ]} in
  quotaName ← deref (LocalizedValue name);
  let infoLabels : Labels :=
    {[ "subscriptionID" := subscriptionId; "location" := location;
       "scope" := scope; "quota" := quota; "quotaName" := quotaName ]} in
  With_Set prometheusQuota infoLabels Float64.one ;;
  With prometheusQuotaCurrent labels ;;
  current ← deref (CurrentValue val);
  With_Set prometheusQuotaCurrent labels (Float64.of_Z current) ;;
  With prometheusQuotaLimit labels ;;
  limit ← deref (Limit val);
  With_Set prometheusQuotaLimit labels (Float64.of_Z limit).

(** [collectAzureComputeUsage] *)
Definition collectAzureComputeUsage (subscriptionId : string) : Go Registry unit :=
  for_each (AzureLocation opts) (λ location,
    match compute_usage_List api subscriptionId location with
    | Err err => panic err
    | Ok list => for_each list (setQuota subscriptionId location "compute")
    end).

(** [collectAzureStorageUsage] *)
Definition collectAzureStorageUsage (subscriptionId : string) : Go Registry unit :=
  for_each (AzureLocation opts) (λ location,
    match storage_usage_List api subscriptionId with
    | Err err => panic err
    | Ok list =>
      values ← deref list;
      for_each values (setQuota subscriptionId location "storage")
    end).

(** The goroutines [runMetricsCollectionAzureRm] spawns for a subscription,
    one after the other in the order of the source; the network usage one
    has its collector commented out. The goroutines defer [wg.Done] and
    recover nothing, so a panic of a collector is a panic of the cycle. *)
Definition collectSubscription (subscription : Subscription) : Go Registry (list string) :=
  subscriptionId ← deref (SubscriptionID subscription);
  collectAzureSubscription subscriptionId ;;
  collectAzureResourceGroup subscriptionId ;;
  ipAddressList ← collectAzurePublicIp subscriptionId;
  collectAzureComputeUsage subscriptionId ;;
  collectAzureStorageUsage subscriptionId ;;
  mret ipAddressList.

(** [runMetricsCollectionAzureRm]: the registry after the cycle, and the
    [publicIpList] the last goroutine gathers from the channel, the lists of
    the subscriptions in the order of their arrival. What that goroutine
    then does with the list ([SetIps], which [portscanner.go] does not have,
    [Cleanup] and [Enable] on the package's portscanner) is not part of the
    registry and is left out. *)
Definition runMetricsCollectionAzureRm (AzureSubscriptions : list Subscription)
    : Go Registry (list string) :=
  Reset prometheusResourceGroup ;;
  Reset prometheusPublicIp ;;
  publicIpChannel ← fold_each AzureSubscriptions [] (λ sent subscription,
    ipAddressList ← collectSubscription subscription;
    mret (sent ++ [ipAddressList]));
  mret (concat (arrival sched publicIpChannel)).

End collectors.

(** ** What the properties of the cycle are stated with *)

Definition panics {S A} (o : Outcome S A) : Prop :=
  match o with
  | Done _ _ => False
  | Panicked _ _ => True
  end.

(** The state a call ends in, returned or panicked. *)
Definition final {S A} (o : Outcome S A) : S :=
  match o with
  | Done _ s => s
  | Panicked _ s => s
  end.

(** An action that, however it ends, takes a state to one related to it. *)
Definition respects {S A} (R : relation S) (m : Go S A) : Prop :=
  ∀ s, R s (final (m s)).

(** No label set has left a vector, and the vectors outside [owned] are as
    they were. *)
Definition only_sets (owned : GaugeName → bool) (r r' : Registry) : Prop :=
  ∀ g, dom (vec r g) ⊆ dom (vec r' g) ∧ (owned g = false → vec r' g = vec r g).

(** No label set has left a vector of [kept]. *)
Definition keeps (kept : GaugeName → bool) (r r' : Registry) : Prop :=
  ∀ g, kept g = true → dom (vec r g) ⊆ dom (vec r' g).

Inductive Collector :=
  | SubscriptionCollector
  | ResourceGroupCollector
  | PublicIpCollector
  | ComputeUsageCollector
  | StorageUsageCollector.

(** The vectors the code of a collector names. *)
Definition writes (c : Collector) (g : GaugeName) : bool :=
  match c, g with
  | SubscriptionCollector, (prometheusSubscription | prometheusApiQuota) => true
  | ResourceGroupCollector, prometheusResourceGroup => true
  | PublicIpCollector, prometheusPublicIp => true
  | (ComputeUsageCollector | StorageUsageCollector),
    (prometheusQuota | prometheusQuotaCurrent | prometheusQuotaLimit) => true
  | _, _ => false
  end.

Definition collect (opts : Opts) (AZURE_RESOURCEGROUP_TAG_PREFIX : string)
    (ParseFloat : string → option float64) (api : AzureApi)
    (c : Collector) (subscriptionId : string) : Go Registry unit :=
  match c with
  | SubscriptionCollector => collectAzureSubscription ParseFloat api subscriptionId
  | ResourceGroupCollector =>
    collectAzureResourceGroup opts AZURE_RESOURCEGROUP_TAG_PREFIX api subscriptionId
  | PublicIpCollector => collectAzurePublicIp api subscriptionId ;; mret ()
  | ComputeUsageCollector => collectAzureComputeUsage opts api subscriptionId
  | StorageUsageCollector => collectAzureStorageUsage opts api subscriptionId
  end.

(** The vectors [runMetricsCollectionAzureRm] resets. *)
Definition reset_by_cycle (g : GaugeName) : bool :=
  match g with
  | prometheusResourceGroup | prometheusPublicIp => true
  | _ => false
  end.

(** One of the calls a collector makes for the subscription fails. *)
Definition fetch_fails (opts : Opts) (api : AzureApi) (c : Collector)
    (subscriptionId : string) : Prop :=
  match c with
  | SubscriptionCollector => ∃ err, subscriptions_Get api subscriptionId = Err err
  | ResourceGroupCollector => ∃ err, groups_ListComplete api subscriptionId = Err err
  | PublicIpCollector => ∃ err, publicIPAddresses_ListAll api subscriptionId = Err err
  | ComputeUsageCollector =>
    ∃ location err, location ∈ AzureLocation opts
      ∧ compute_usage_List api subscriptionId location = Err err
  | StorageUsageCollector =>
    AzureLocation opts ≠ [] ∧ ∃ err, storage_usage_List api subscriptionId = Err err
  end.

(** ** Concrete inputs *)

Module Scenario.

(** Maps visited in the order of their keys on every loop. *)
Definition in_order : RangeOracle :=
  {| shuffle := λ A n l, l;
     shuffle_perm := λ A n l, reflexivity l |}.

(** Maps visited in the order of their keys on the even loops, and in the
    opposite order on the odd ones. *)
Definition alternating : RangeOracle :=
  {| shuffle := λ A n l, if Nat.even n then l else reverse l;
     shuffle_perm := λ A n l,
       match Nat.even n as b return (if b then l else reverse l) ≡ₚ l with
       | true => reflexivity l
       | false => reverse_Permutation l
       end |}.

(** Maps visited in the opposite order of their keys on every loop. *)
Definition reversed : RangeOracle :=
  {| shuffle := λ A n l, reverse l;
     shuffle_perm := λ A n l, reverse_Permutation l |}.

Definition quote : string := String "034"%char EmptyString.

Definition quoted (s : string) : string := quote +:+ s +:+ quote.

Definition open_port (ipAddress : string) (port : Z) : PortscannerResult :=
  {| IpAddress := ipAddress;
     ResultLabels := {[ "ipAddress" := ipAddress; "protocol" := "TCP";
                        "port" := Itoa port; "description" := "" ]};
     Value := Float64.one |}.

Definition address (ipAddress : string) : PublicIPAddress :=
  {| IPAddress := Some ipAddress;
     ID := Some ("/subscriptions/S/resourceGroups/edge/providers/Microsoft.Network/publicIPAddresses/"
                 +:+ ipAddress);
     Location := Some "westeurope";
     PublicIPAllocationMethod := "Static";
     PublicIPAddressVersion := "IPv4" |}.

Definition empty_disk : FileSystem := {| contents := ∅; unwritable := ∅ |}.

Definition world (c : Portscanner) (d : FileSystem) : World :=
  {| scanner := c; tick := 0; log := []; disk := d |}.

(** Two cached addresses, both still discovered. *)
Definition two_cached : Portscanner :=
  {| List := {[ "10.0.0.1" := [open_port "10.0.0.1" 22];
                "10.0.0.2" := [open_port "10.0.0.2" 80] ]};
     PublicIps := {[ "10.0.0.1" := address "10.0.0.1";
                     "10.0.0.2" := address "10.0.0.2" ]};
     Enabled := true |}.

(** A cached address that is no longer discovered, and a discovered one
    that was never scanned; [Enable] has not been called. *)
Definition not_enabled : Portscanner :=
  {| List := {[ "10.0.0.1" := [open_port "10.0.0.1" 22] ]};
     PublicIps := {[ "10.0.0.2" := address "10.0.0.2" ]};
     Enabled := false |}.

Definition opts : Opts :=
  {| Portscan_Timeout := 5;
     Portscan_Parallel := 2;
     Portscan_Threads := 1000;
     AzureLocation := ["westeurope"];
     AzureResourceGroupTags := ["owner"] |}.

Definition portscanPortRange : list Portrange :=
  [ {| FirstPort := 1; LastPort := 1024 |} ].

(** Port 443 is open on 10.0.0.2, nothing else is. *)
Definition net : Network :=
  {| GetOpenedPort := λ ipAddress _ _ first last,
       if decide (ipAddress = "10.0.0.2" ∧ first ≤ 443 ≤ last)%Z then [443%Z] else [];
     scan_seconds := λ _, 3%Z |}.

(** Port 22 is open on 10.0.0.1, nothing else is. *)
Definition net_ssh : Network :=
  {| GetOpenedPort := λ ipAddress _ _ first last,
       if decide (ipAddress = "10.0.0.1" ∧ first ≤ 22 ≤ last)%Z then [22%Z] else [];
     scan_seconds := λ _, 1%Z |}.

(** Two discovered addresses, nothing cached yet. *)
Definition two_discovered : Portscanner :=
  {| List := ∅;
     PublicIps := {[ "10.0.0.1" := address "10.0.0.1";
                     "10.0.0.2" := address "10.0.0.2" ]};
     Enabled := true |}.

(** A document that names one address of [List] and no [PublicIps]. *)
Definition one_entry_document : string :=
  "{" +:+ quoted "List" +:+ ":{" +:+ quoted "10.0.0.2" +:+ ":[]}}".


(** A document that has [List] at null. *)
Definition null_List_document : string := "{" +:+ quoted "List" +:+ ":null}".

(** The document null. *)
Definition null_document : string := "null".

(** A decoder that knows the four documents above. *)
Definition json : Json :=
  {| json_Unmarshal := λ jsonContent,
       if decide (jsonContent = one_entry_document) then
         (Some {| snap_List := [Some {[ "10.0.0.2" := [] ]}]; snap_PublicIps := [] |},
          None)
       else if decide (jsonContent = null_List_document) then
         (Some {| snap_List := [None]; snap_PublicIps := [] |}, None)
       else if decide (jsonContent = null_document) then
         (None, None)
       else
         (Some {| snap_List := []; snap_PublicIps := [] |},
          Some "unexpected end of JSON input");
     json_Marshal := λ _, "{}" |}.

Definition cache_file : string := "/tmp/portscanner.json".

Definition disk_with (jsonContent : string) : FileSystem :=
  {| contents := {[ cache_file := jsonContent ]}; unwritable := ∅ |}.

Definition read_only_disk : FileSystem :=
  {| contents := ∅; unwritable := {[ cache_file ]} |}.

Definition subscription : Subscription :=
  {| SubscriptionID := Some "S";
     DisplayName := Some "production";
     Policies := Some {| SpendingLimit := "Off";
                         QuotaID := Some "PayAsYouGo_2014-09-01";
                         LocationPlacementID := Some "Public_2014-09-01" |};
     Header := {[ "x-ms-ratelimit-remaining-subscription-reads" := "11999" ]} |}.

Definition ParseFloat (s : string) : option float64 :=
  if decide (s = "11999") then Some (Float64.of_Z 11999) else None.

Definition group : Group :=
  {| GroupName := Some "edge"; GroupLocation := Some "westeurope";
     Tags := {[ "owner" := Some "netops" ]} |}.

Definition cores : Usage :=
  {| Name := Some {| NameValue := Some "cores";
                     LocalizedValue := Some "Total Regional vCPUs" |};
     CurrentValue := Some 12%Z;
     Limit := Some 100%Z |}.

Definition accounts : Usage :=
  {| Name := Some {| NameValue := Some "StorageAccounts";
                     LocalizedValue := Some "Storage Accounts" |};
     CurrentValue := Some 3%Z;
     Limit := Some 250%Z |}.

(** The lists arrive in the order in which they are sent. *)
Definition in_turn : Schedule :=
  {| arrival := λ _ l, l; arrival_perm := λ _ l, reflexivity l |}.

(** Every call answers. *)
Definition api : AzureApi :=
  {| subscriptions_Get := λ _, Ok subscription;
     groups_ListComplete := λ _, Ok (Some [group]);
     publicIPAddresses_ListAll := λ _, Ok [Some (address "10.0.0.1")];
     compute_usage_List := λ _ _, Ok [cores];
     storage_usage_List := λ _, Ok (Some [accounts]) |}.

(** The lists arrive last sent first. *)
Definition last_first : Schedule :=
  {| arrival := λ _ l, reverse l; arrival_perm := λ _ l, reverse_Permutation l |}.

Definition subscription_T : Subscription :=
  {| SubscriptionID := Some "T";
     DisplayName := Some "staging";
     Policies := Policies subscription;
     Header := ∅ |}.

(** Every call answers, with one address for S and another for every other
    subscription. *)
Definition api_two : AzureApi :=
  {| subscriptions_Get := subscriptions_Get api;
     groups_ListComplete := groups_ListComplete api;
     publicIPAddresses_ListAll := λ subscriptionId,
       if decide (subscriptionId = "S") then Ok [Some (address "10.0.0.1")]
       else Ok [Some (address "10.0.0.2")];
     compute_usage_List := compute_usage_List api;
     storage_usage_List := storage_usage_List api |}.

(** The address listed has no properties. *)
Definition api_no_properties : AzureApi :=
  {| subscriptions_Get := subscriptions_Get api;
     groups_ListComplete := groups_ListComplete api;
     publicIPAddresses_ListAll := λ _, Ok [None];
     compute_usage_List := compute_usage_List api;
     storage_usage_List := storage_usage_List api |}.

(** The cores quota comes without its current value. *)
Definition api_no_current : AzureApi :=
  {| subscriptions_Get := subscriptions_Get api;
     groups_ListComplete := groups_ListComplete api;
     publicIPAddresses_ListAll := publicIPAddresses_ListAll api;
     compute_usage_List := λ _ _,
       Ok [ {| Name := Name cores; CurrentValue := None; Limit := Limit cores |} ];
     storage_usage_List := storage_usage_List api |}.

(** The compute usage call fails, every other call answers. *)
Definition api_quota_down : AzureApi :=
  {| subscriptions_Get := subscriptions_Get api;
     groups_ListComplete := groups_ListComplete api;
     publicIPAddresses_ListAll := publicIPAddresses_ListAll api;
     compute_usage_List := λ _ _, Err "compute.UsageClient#List: StatusCode=503";
     storage_usage_List := storage_usage_List api |}.

(** The compute usage call answers with no usage at all. *)
Definition api_no_usage : AzureApi :=
  {| subscriptions_Get := subscriptions_Get api;
     groups_ListComplete := groups_ListComplete api;
     publicIPAddresses_ListAll := publicIPAddresses_ListAll api;
     compute_usage_List := λ _ _, Ok [];
     storage_usage_List := storage_usage_List api |}.

Definition empty_registry : Registry :=
  {| vec_Subscription := ∅; vec_ResourceGroup := ∅; vec_PublicIp := ∅;
     vec_ApiQuota := ∅; vec_Quota := ∅; vec_QuotaCurrent := ∅;
     vec_QuotaLimit := ∅; errorLog := [] |}.

Definition cores_labels : Labels :=
  {[ "subscriptionID" := "S"; "location" := "westeurope";
     "scope" := "compute"; "quota" := "cores" ]}.

Definition edge_labels : Labels :=
  {[ "subscriptionID" := "S"; "resourceGroup" := "edge";
     "location" := "westeurope"; "tag_owner" := "netops" ]}.

(** The registry a first cycle, with every call answering, leaves. *)
Definition after_first_cycle : Registry :=
  match runMetricsCollectionAzureRm opts "tag_" ParseFloat api in_turn [subscription]
          empty_registry with
  | Done _ r => r
  | Panicked _ r => r
  end.

End Scenario.

(** ** What the further properties are stated with *)

(** Every entry of the discovery set sits under its own address, as
    [SetAzurePublicIpList] builds it. *)
Definition keyed_by_address (c : Portscanner) : Prop :=
  ∀ ipAddress pip, PublicIps c !! ipAddress = Some pip →
    to_String (IPAddress pip) = ipAddress.

(** A process that starts over on the disk another one left: a fresh
    portscanner, [Init] called on it. *)
Definition restart (w : World) : World :=
  Init {| scanner := scanner w; tick := 0; log := []; disk := disk w |}.

Module Restart.

(** The cache of [Scenario.not_enabled] with the gate open: 10.0.0.1 is
    cached and no longer discovered, 10.0.0.2 discovered. *)
Definition saved : Portscanner := with_Enabled true Scenario.not_enabled.

(** A codec that knows one document, the one it writes for [saved]. *)
Definition json : Json :=
  {| json_Unmarshal := λ jsonContent,
       if decide (jsonContent = "saved") then (Some (exported saved), None)
       else (Some {| snap_List := []; snap_PublicIps := [] |},
             Some "invalid character");
     json_Marshal := λ _, "saved" |}.

End Restart.

(** What a call returns, if it returns. *)
Definition returned {S A} (o : Outcome S A) : option A :=
  match o with
  | Done a _ => Some a
  | Panicked _ _ => None
  end.

(** An action that returns [a] from every state, or panics from every
    state. *)
Definition yields {S A} (m : Go S A) (o : option A) : Prop :=
  ∀ s, returned (m s) = o.

(** The pointers a collector dereferences are there. *)
Definition subscription_complete (sub : Subscription) : bool :=
  match SubscriptionID sub, DisplayName sub, Policies sub with
  | Some _, Some _, Some policies =>
    match QuotaID policies, LocationPlacementID policies with
    | Some _, Some _ => true
    | _, _ => false
    end
  | _, _, _ => false
  end.

Definition group_complete (tags : list string) (item : Group) : bool :=
  match GroupName item, GroupLocation item with
  | Some _, Some _ =>
    forallb (λ rgTag, match Tags item !! rgTag with
                      | Some None => false
                      | _ => true
                      end) tags
  | _, _ => false
  end.

Definition address_complete (val : option PublicIPAddress) : bool :=
  match val with
  | Some val =>
    match ID val, Location val with
    | Some _, Some _ => true
    | _, _ => false
    end
  | None => false
  end.

Definition usage_complete (val : Usage) : bool :=
  match Name val, CurrentValue val, Limit val with
  | Some name, Some _, Some _ =>
    match NameValue name, LocalizedValue name with
    | Some _, Some _ => true
    | _, _ => false
    end
  | _, _, _ => false
  end.

(** Every call the collectors make for the subscription answers, and with
    every pointer the collectors dereference. *)
Definition answers_complete (opts : Opts) (api : AzureApi)
    (subscription : Subscription) : bool :=
  match SubscriptionID subscription with
  | None => false
  | Some subscriptionId =>
    match subscriptions_Get api subscriptionId with
    | Ok sub => subscription_complete sub
    | Err _ => false
    end
    && match groups_ListComplete api subscriptionId with
       | Ok (Some items) => forallb (group_complete (AzureResourceGroupTags opts)) items
       | _ => false
       end
    && match publicIPAddresses_ListAll api subscriptionId with
       | Ok list => forallb address_complete list
       | Err _ => false
       end
    && forallb (λ location,
                  match compute_usage_List api subscriptionId location with
                  | Ok list => forallb usage_complete list
                  | Err _ => false
                  end) (AzureLocation opts)
    && forallb (λ _,
                  match storage_usage_List api subscriptionId with
                  | Ok (Some values) => forallb usage_complete values
                  | _ => false
                  end) (AzureLocation opts)
  end.

(** The addresses the provider lists as allocated for the subscription. *)
Definition allocated (api : AzureApi) (subscription : Subscription) : list string :=
  match SubscriptionID subscription with
  | Some subscriptionId =>
    match publicIPAddresses_ListAll api subscriptionId with
    | Ok list => omap (λ val, val ≫= IPAddress) list
    | Err _ => []
    end
  | None => []
  end.

(** An action whose panics, if any, carry an error of [E]. *)
Definition raises {S A} (m : Go S A) (E : string → Prop) : Prop :=
  ∀ s, match m s with
       | Done _ _ => True
       | Panicked err _ => E err
       end.

(** Every label set a vector holds names exactly the labels the vector was
    declared with. *)
Definition labelled_as (names : GaugeName → list string) (r : Registry) : Prop :=
  ∀ g labels, is_Some (vec r g !! labels) →
    dom labels =@{gset string} list_to_set (names g).

(** An action that keeps an invariant of the state however it ends, and
    returns a value of [φ] when it returns. *)
Definition preserves {S A} (I : S → Prop) (m : Go S A) (φ : A → Prop) : Prop :=
  ∀ s, I s →
    match m s with
    | Done a s' => I s' ∧ φ a
    | Panicked _ s' => I s'
    end.

(** The [prefixSlice] its name and its use suggest. *)
Definition prefix_each (prefix : string) (l : list string) : list string :=
  (λ s, prefix +:+ s) <$> l.








(** * Properties *)

(** ** The cache: eviction and insertion *)

Section cache_facts.
Context (ro : RangeOracle).

Lemma elem_of_range_entries {V} (m : gmap string V) (w : World) k v :
  (k, v) ∈ range_entries ro m w ↔ m !! k = Some v.
Proof.
  unfold range_entries. rewrite (shuffle_perm ro).
  apply elem_of_map_to_list.
Qed.

Lemma elem_of_range_keys {V} (m : gmap string V) (w : World) k :
  k ∈ (range_entries ro m w).*1 ↔ is_Some (m !! k).
Proof.
  rewrite list_elem_of_fmap. split.
  - intros [[k' v] [-> Hin]]. apply elem_of_range_entries in Hin. by exists v.
  - intros [v Hv]. exists (k, v). split; [done|]. by apply elem_of_range_entries.
Qed.

Lemma range_entries_perm {V} (m : gmap string V) (w : World) :
  range_entries ro m w ≡ₚ map_to_list m.
Proof. apply (shuffle_perm ro). Qed.

(** The first loop of [Cleanup] collects the keys without an owner, in
    the order it meets them. *)
Lemma orphanedIpList_acc c entries (acc : list string) :
  foldl (λ orphaned '(ipAddress, _),
           match PublicIps c !! ipAddress with
           | Some _ => orphaned
           | None => orphaned ++ [ipAddress]
           end) acc (entries : list (string * list PortscannerResult))
  = acc ++ filter (λ ip, PublicIps c !! ip = None) entries.*1.
Proof.
  revert acc. induction entries as [|[ip rs] entries IH]; intros acc; simpl.
  - by rewrite app_nil_r.
  - rewrite IH. destruct (PublicIps c !! ip) as [pip|] eqn:Hip.
    + rewrite filter_cons_False; [done|]. by rewrite Hip.
    + rewrite filter_cons_True by done. by rewrite <- app_assoc.
Qed.

Lemma orphanedIpList_filter c entries :
  orphanedIpList c entries = filter (λ ip, PublicIps c !! ip = None) entries.*1.
Proof. apply orphanedIpList_acc. Qed.

(** The second loop of [Cleanup]. *)
Lemma lookup_foldl_delete {V} (l : list string) (m : gmap string V) k :
  foldl (λ m ip, delete ip m) m l !! k = if decide (k ∈ l) then None else m !! k.
Proof.
  revert m. induction l as [|ip l IH]; intros m; cbn [foldl].
  - rewrite decide_False; [done|]. apply not_elem_of_nil.
  - rewrite IH.
    destruct (decide (k ∈ l)) as [Hl|Hl], (decide (k ∈ ip :: l)) as [Hc|Hc];
      rewrite elem_of_cons in Hc.
    + done.
    + naive_solver.
    + destruct Hc as [->|?]; [|done]. apply lookup_delete_eq.
    + apply lookup_delete_ne. naive_solver.
Qed.

Lemma Cleanup_lookup (w : World) ip :
  List (scanner (Cleanup ro w)) !! ip =
    match PublicIps (scanner w) !! ip with
    | Some _ => List (scanner w) !! ip
    | None => None
    end.
Proof.
  unfold Cleanup; simpl. rewrite lookup_foldl_delete, orphanedIpList_filter.
  destruct (PublicIps (scanner w) !! ip) as [pip|] eqn:Hip.
  - rewrite decide_False; [done|].
    intros [Hnone _]%list_elem_of_filter. congruence.
  - destruct (List (scanner w) !! ip) as [rs|] eqn:Hl.
    + rewrite decide_True; [done|]. apply list_elem_of_filter. split; [done|].
      apply elem_of_range_keys. by rewrite Hl.
    + by destruct (decide _).
Qed.

Lemma Cleanup_PublicIps (w : World) :
  PublicIps (scanner (Cleanup ro w)) = PublicIps (scanner w).
Proof. done. Qed.

Lemma Cleanup_log (w : World) : log (Cleanup ro w) = log w.
Proof. done. Qed.

(** [pushResults] only calls back. *)
Lemma push_each_scanner (rs : list PortscannerResult) (w : World) :
  scanner (foldl (λ w r, emit (ResultPush r) w) w rs) = scanner w.
Proof. revert w. induction rs as [|r rs IH]; intros w; simpl; [done|]. by rewrite IH. Qed.

Lemma push_each_log (rs : list PortscannerResult) (w : World) :
  log (foldl (λ w r, emit (ResultPush r) w) w rs) = log w ++ (ResultPush <$> rs).
Proof.
  revert w. induction rs as [|r rs IH]; intros w; simpl.
  - by rewrite app_nil_r.
  - rewrite IH. simpl. by rewrite <- app_assoc.
Qed.

Lemma push_all_scanner (entries : list (string * list PortscannerResult)) (w : World) :
  scanner (foldl (λ w '(_, rs), foldl (λ w r, emit (ResultPush r) w) w rs) w entries)
  = scanner w.
Proof.
  revert w. induction entries as [|[ip rs] entries IH]; intros w; simpl; [done|].
  by rewrite IH, push_each_scanner.
Qed.

Lemma push_all_log (entries : list (string * list PortscannerResult)) (w : World) :
  log (foldl (λ w '(_, rs), foldl (λ w r, emit (ResultPush r) w) w rs) w entries)
  = log w ++ (ResultPush <$> concat entries.*2).
Proof.
  revert w. induction entries as [|[ip rs] entries IH]; intros w; simpl.
  - by rewrite app_nil_r.
  - by rewrite IH, push_each_log, fmap_app, app_assoc.
Qed.

Lemma pushResults_scanner (w : World) : scanner (pushResults ro w) = scanner w.
Proof. unfold pushResults. by rewrite push_all_scanner. Qed.

Lemma pushResults_log (w : World) :
  log (pushResults ro w)
  = log w ++ (ResultPush <$> concat (range_entries ro (List (scanner w)) w).*2).
Proof. unfold pushResults. by rewrite push_all_log. Qed.

(** C1: after [Cleanup], a cache entry is there exactly when its address
    is a key of the discovery set, and is then the entry that was cached; so
    the keys of [List] are keys of [PublicIps]. The discovery set, the gate
    and the log are as they were. *)
Theorem Cleanup_evicts_exactly_orphans (w : World) :
  let c := scanner w in
  let c' := scanner (Cleanup ro w) in
  (∀ ip, List c' !! ip =
           match PublicIps c !! ip with
           | Some _ => List c !! ip
           | None => None
           end)
  ∧ dom (List c') ⊆ dom (PublicIps c')
  ∧ PublicIps c' = PublicIps c
  ∧ Enabled c' = Enabled c
  ∧ log (Cleanup ro w) = log w.
Proof.
  cbv zeta. split; [apply Cleanup_lookup|]. split; [|done].
  intros ip [rs Hrs]%elem_of_dom. rewrite Cleanup_lookup in Hrs.
  apply elem_of_dom. rewrite Cleanup_PublicIps.
  by destruct (PublicIps (scanner w) !! ip).
Qed.

(** C2: after [addResults], the cache holds exactly [results] for the
    address of [pip], whatever it held before, and every other entry is as
    it was; the discovery set is not touched. *)
Theorem addResults_replaces_entry (pip : PublicIPAddress)
    (results : list PortscannerResult) (w : World) :
  let c := scanner w in
  let c' := scanner (addResults ro pip results w) in
  List c' !! to_String (IPAddress pip) = Some results
  ∧ (∀ ip, ip ≠ to_String (IPAddress pip) → List c' !! ip = List c !! ip)
  ∧ PublicIps c' = PublicIps c
  ∧ Enabled c' = Enabled c.
Proof.
  cbv zeta. unfold addResults. rewrite pushResults_scanner. simpl.
  split; [apply lookup_insert_eq|]. split; [|done].
  intros ip Hne. by apply lookup_insert_ne.
Qed.

End cache_facts.

(** ** Publication *)

Lemma concat_perm {A} (ls ks : list (list A)) : ls ≡ₚ ks → concat ls ≡ₚ concat ks.
Proof.
  induction 1 as [|l ls ks _ IH|l k ls|ls ks js _ IH1 _ IH2]; simpl.
  - done.
  - by rewrite IH.
  - rewrite !app_assoc. by rewrite (Permutation_app_comm k l).
  - by rewrite IH1.
Qed.

Lemma elem_of_concat {A} (ls : list (list A)) x :
  x ∈ concat ls ↔ ∃ l, l ∈ ls ∧ x ∈ l.
Proof.
  induction ls as [|k ls IH]; simpl.
  - split; [by intros ?%elem_of_nil|]. by intros (l & ?%elem_of_nil & _).
  - rewrite elem_of_app, IH. split.
    + intros [Hk|(l & Hl & Hx)].
      * exists k. split; [by left|done].
      * exists l. split; [by right|done].
    + intros (l & [->|Hl]%elem_of_cons & Hx); [by left|].
      right. by exists l.
Qed.

Lemma length_concat_perm {A} (ls ks : list (list A)) :
  ls ≡ₚ ks → length (concat ls) = length (concat ks).
Proof. intros H. by rewrite (concat_perm _ _ H). Qed.

Lemma pushed_app es1 es2 : pushed (es1 ++ es2) = pushed es1 ++ pushed es2.
Proof. apply omap_app. Qed.

Lemma pushed_ResultPush rs : pushed (ResultPush <$> rs) = rs.
Proof. induction rs as [|r rs IH]; simpl; [done|]. by f_equal. Qed.

Lemma emitted_since_app (w w' : World) es :
  log w' = log w ++ es → emitted_since w w' = es.
Proof. unfold emitted_since. intros ->. apply drop_app_length. Qed.

Lemma emissions_app r es1 es2 :
  emissions r (es1 ++ es2) = emissions r es1 + emissions r es2.
Proof. unfold emissions. by rewrite pushed_app, filter_app, length_app. Qed.

Section publication_facts.
Context (ro : RangeOracle).

Lemma Publish_scanner (w : World) : scanner (Publish ro w) = scanner w.
Proof. unfold Publish. by rewrite pushResults_scanner. Qed.

Lemma Publish_emitted (w : World) :
  emitted_since w (Publish ro w)
  = ResultCleanup :: (ResultPush <$> concat (range_entries ro (List (scanner w)) w).*2).
Proof.
  apply emitted_since_app. unfold Publish. rewrite pushResults_log. simpl.
  by rewrite <- app_assoc.
Qed.

Lemma Publish_pushed (w : World) :
  pushed (emitted_since w (Publish ro w))
  = concat (range_entries ro (List (scanner w)) w).*2.
Proof. rewrite Publish_emitted. simpl. apply pushed_ResultPush. Qed.

Lemma addResults_emitted (pip : PublicIPAddress) (results : list PortscannerResult)
    (w : World) :
  emitted_since w (addResults ro pip results w)
  = ResultPush <$> concat
      (range_entries ro (<[to_String (IPAddress pip) := results]> (List (scanner w))) w).*2.
Proof. apply emitted_since_app. unfold addResults. by rewrite pushResults_log. Qed.

(** C7, as the code has it: two calls of [Publish] in a row hand the same
    results to [ResultPush], one call per cached result, the results of an
    address next to each other and in their cached order; the addresses come
    in the order of the map iteration of each call, so the second sequence
    is a permutation of the first, and equal to it when both iterations
    visit the addresses in the same order. The cache is not changed. *)
Theorem Publish_twice_same_results (w : World) :
  let c := scanner w in
  let w1 := Publish ro w in
  let w2 := Publish ro w1 in
  let first := pushed (emitted_since w w1) in
  let second := pushed (emitted_since w1 w2) in
  first ≡ₚ second
  ∧ length first = length (concat (map_to_list (List c)).*2)
  ∧ (∃ entries, entries ≡ₚ map_to_list (List c) ∧ first = concat entries.*2)
  ∧ (∃ entries, entries ≡ₚ map_to_list (List c) ∧ second = concat entries.*2)
  ∧ (range_entries ro (List c) w = range_entries ro (List c) w1 → first = second)
  ∧ scanner w1 = c ∧ scanner w2 = c.
Proof.
  cbv zeta. rewrite !Publish_pushed, !Publish_scanner.
  pose proof (range_entries_perm ro (List (scanner w)) w) as H1.
  pose proof (range_entries_perm ro (List (scanner w)) (Publish ro w)) as H2.
  split; [|split; [|split; [|split; [|split; [|done]]]]].
  - apply concat_perm, fmap_Permutation. by rewrite H1, H2.
  - apply length_concat_perm, fmap_Permutation, H1.
  - eexists. split; [exact H1|done].
  - eexists. split; [exact H2|done].
  - by intros ->.
Qed.

(** [addResults] hands to [ResultPush] every result of every address the
    cache holds once the new entry is in, the results of [pip] among them. *)
Lemma addResults_pushes_whole_cache (pip : PublicIPAddress)
    (results : list PortscannerResult) (w : World) :
  let w' := addResults ro pip results w in
  (∃ entries, entries ≡ₚ map_to_list (List (scanner w'))
     ∧ emitted_since w w' = ResultPush <$> concat entries.*2)
  ∧ (∀ ip rs r, List (scanner w') !! ip = Some rs → r ∈ rs →
       r ∈ pushed (emitted_since w w'))
  ∧ (∀ r, r ∈ results → r ∈ pushed (emitted_since w w')).
Proof.
  cbv zeta. rewrite addResults_emitted.
  assert (List (scanner (addResults ro pip results w))
          = <[to_String (IPAddress pip) := results]> (List (scanner w))) as Hl.
  { unfold addResults. by rewrite pushResults_scanner. }
  rewrite Hl.
  assert (∀ ip rs r,
    <[to_String (IPAddress pip) := results]> (List (scanner w)) !! ip = Some rs →
    r ∈ rs →
    r ∈ pushed (ResultPush <$> concat (range_entries ro
          (<[to_String (IPAddress pip) := results]> (List (scanner w))) w).*2)) as Hall.
  { intros ip rs r Hip Hr. rewrite pushed_ResultPush.
    apply elem_of_concat. exists rs. split; [|done].
    apply list_elem_of_fmap. exists (ip, rs). split; [done|].
    by apply elem_of_range_entries. }
  split; [|split].
  - eexists. split; [apply range_entries_perm|done].
  - done.
  - intros r Hr. eapply Hall; [apply lookup_insert_eq|done].
Qed.

End publication_facts.

(** C7 as stated fails: with two cached addresses and a map iteration that
    visits them in one order, then in the other, the second [Publish] hands
    the two results to [ResultPush] in the opposite order. *)
Lemma Publish_twice_order_differs :
  let w := Scenario.world Scenario.two_cached Scenario.empty_disk in
  let w1 := Publish Scenario.alternating w in
  let w2 := Publish Scenario.alternating w1 in
  pushed (emitted_since w w1)
    = [Scenario.open_port "10.0.0.1" 22; Scenario.open_port "10.0.0.2" 80]
  ∧ pushed (emitted_since w1 w2)
    = [Scenario.open_port "10.0.0.2" 80; Scenario.open_port "10.0.0.1" 22]
  ∧ pushed (emitted_since w w1) ≠ pushed (emitted_since w1 w2).
Proof.
  cbv zeta. rewrite !Publish_pushed.
  split; [vm_compute; reflexivity|]. split; [vm_compute; reflexivity|].
  intros Heq. apply (f_equal (fmap IpAddress)) in Heq.
  vm_compute in Heq. discriminate Heq.
Qed.

(** ** The scan pass and the gate *)

Lemma foldl_gate {A} (f : World → A → World) (b : bool) (l : list A) (w : World) :
  (∀ w x, f (gate b w) x = gate b (f w x)) →
  foldl f (gate b w) l = gate b (foldl f w l).
Proof.
  intros Hf. revert w. induction l as [|x l IH]; intros w; simpl; [done|].
  by rewrite Hf, IH.
Qed.

Section gate_facts.
Context (ro : RangeOracle) (opts : Opts) (portscanPortRange : list Portrange)
  (net : Network).

Lemma pushResults_gate b (w : World) :
  pushResults ro (gate b w) = gate b (pushResults ro w).
Proof.
  unfold pushResults.
  change (next_range (gate b w)) with (gate b (next_range w)).
  change (range_entries ro (List (scanner (gate b w))) (gate b w))
    with (range_entries ro (List (scanner w)) w).
  apply foldl_gate. intros w' [ip rs]. by apply foldl_gate.
Qed.

Lemma Cleanup_gate b (w : World) : Cleanup ro (gate b w) = gate b (Cleanup ro w).
Proof. done. Qed.

Lemma Publish_gate b (w : World) : Publish ro (gate b w) = gate b (Publish ro w).
Proof. unfold Publish. by rewrite <- pushResults_gate. Qed.

Lemma addResults_gate b pip results (w : World) :
  addResults ro pip results (gate b w) = gate b (addResults ro pip results w).
Proof. unfold addResults. by rewrite <- pushResults_gate. Qed.

Lemma scanTask_gate b pip timeout (w : World) :
  scanTask ro opts portscanPortRange net pip timeout (gate b w)
  = gate b (scanTask ro opts portscanPortRange net pip timeout w).
Proof.
  unfold scanTask.
  change (scanIp opts portscanPortRange net pip timeout
            (scanner (emit (StartScanIpAdress pip) (gate b w))))
    with (scanIp opts portscanPortRange net pip timeout
            (scanner (emit (StartScanIpAdress pip) w))).
  destruct (scanIp _ _ _ _ _ _) as [results elapsed].
  by rewrite <- addResults_gate.
Qed.

Lemma Start_gate b (w : World) :
  Start ro opts portscanPortRange net (gate b w)
  = gate b (Start ro opts portscanPortRange net w).
Proof.
  unfold Start.
  change (emit StartupScan (gate b w)) with (gate b (emit StartupScan w)).
  rewrite Cleanup_gate, Publish_gate.
  set (w1 := Publish ro (Cleanup ro (emit StartupScan w))).
  change (next_range (gate b w1)) with (gate b (next_range w1)).
  change (range_entries ro (PublicIps (scanner (gate b w1))) (gate b w1))
    with (range_entries ro (PublicIps (scanner w1)) w1).
  rewrite (foldl_gate _ b).
  - by rewrite Cleanup_gate, Publish_gate.
  - intros w' [ip pip]. apply scanTask_gate.
Qed.

Lemma pushResults_Enabled (w : World) :
  Enabled (scanner (pushResults ro w)) = Enabled (scanner w).
Proof. by rewrite pushResults_scanner. Qed.

Lemma scanTask_Enabled pip timeout (w : World) :
  Enabled (scanner (scanTask ro opts portscanPortRange net pip timeout w))
  = Enabled (scanner w).
Proof.
  unfold scanTask. destruct (scanIp _ _ _ _ _ _) as [results elapsed].
  unfold addResults. by rewrite pushResults_scanner.
Qed.

Lemma scanTasks_Enabled timeout (pips : list (string * PublicIPAddress)) (w : World) :
  Enabled (scanner (foldl (λ w '(_, pip),
             scanTask ro opts portscanPortRange net pip timeout w) w pips))
  = Enabled (scanner w).
Proof.
  revert w. induction pips as [|[ip pip] pips IH]; intros w; simpl; [done|].
  by rewrite IH, scanTask_Enabled.
Qed.

Lemma Start_Enabled (w : World) :
  Enabled (scanner (Start ro opts portscanPortRange net w)) = Enabled (scanner w).
Proof.
  unfold Start. simpl. rewrite Publish_scanner. simpl.
  rewrite scanTasks_Enabled. simpl. by rewrite Publish_scanner.
Qed.

(** C3, as the code has it: [Start] never reads the gate. A pass started
    with the gate closed does what the pass started with the gate open does,
    callback for callback and cache entry for cache entry, and hands the
    gate on as it found it; [Enable] sets the gate and nothing else. *)
Theorem Start_ignores_Enabled (w : World) (b : bool) :
  Start ro opts portscanPortRange net (gate b w)
    = gate b (Start ro opts portscanPortRange net w)
  ∧ Enabled (scanner (Start ro opts portscanPortRange net w)) = Enabled (scanner w)
  ∧ Enable w = gate true w.
Proof. split; [apply Start_gate|]. split; [apply Start_Enabled|done]. Qed.

End gate_facts.

(** C3 as stated fails: [Enable] was not called, and [Start] still calls
    back, scans 10.0.0.2, evicts 10.0.0.1 from the cache and caches what the
    scan found. *)
Lemma Start_runs_before_Enable :
  let w := Scenario.world Scenario.not_enabled Scenario.empty_disk in
  let w' := Start Scenario.in_order Scenario.opts Scenario.portscanPortRange
              Scenario.net w in
  Enabled (scanner w) = false
  ∧ emitted_since w w'
    = [ StartupScan; ResultCleanup;
        StartScanIpAdress (Scenario.address "10.0.0.2");
        FinishScanIpAdress (Scenario.address "10.0.0.2") (Float64.of_Z 3);
        ResultPush (Scenario.open_port "10.0.0.2" 443);
        ResultCleanup;
        ResultPush (Scenario.open_port "10.0.0.2" 443);
        FinishScan ]
  ∧ List (scanner w) = {[ "10.0.0.1" := [Scenario.open_port "10.0.0.1" 22] ]}
  ∧ List (scanner w') = {[ "10.0.0.2" := [Scenario.open_port "10.0.0.2" 443] ]}
  ∧ w' ≠ w.
Proof.
  cbv zeta. split; [reflexivity|]. split; [vm_compute; reflexivity|].
  split; [reflexivity|]. split; [vm_compute; reflexivity|].
  intros Heq. apply (f_equal (λ w, length (log w))) in Heq.
  vm_compute in Heq. discriminate Heq.
Qed.

(** ** How often a result is pushed during a pass *)

Lemma pushes_between_refl r (w : World) : pushes_between r 0 w w.
Proof. exists []. split; [by rewrite app_nil_r|]. lia. Qed.

Lemma pushes_between_trans r n m (w1 w2 w3 : World) :
  pushes_between r n w1 w2 → pushes_between r m w2 w3 →
  pushes_between r (n + m) w1 w3.
Proof.
  intros (es1 & H1 & Hn) (es2 & H2 & Hm). exists (es1 ++ es2). split.
  - by rewrite H2, H1, app_assoc.
  - rewrite emissions_app. lia.
Qed.

Lemma pushes_between_emitted r n (w w' : World) :
  pushes_between r n w w' → n ≤ emissions r (emitted_since w w').
Proof. intros (es & Hes & Hn). by rewrite (emitted_since_app _ _ _ Hes). Qed.

Lemma pushes_between_emit r e (w : World) : pushes_between r 0 w (emit e w).
Proof. exists [e]. split; [done|]. lia. Qed.

Lemma emissions_ResultPush r (rs : list PortscannerResult) :
  r ∈ rs → 1 ≤ emissions r (ResultPush <$> rs).
Proof.
  intros Hr. unfold emissions. rewrite pushed_ResultPush.
  assert (r ∈ filter (λ x, x = r) rs) as Hin by by apply list_elem_of_filter.
  destruct (filter (λ x, x = r) rs); [by apply elem_of_nil in Hin|simpl; lia].
Qed.

Section pass_facts.
Context (ro : RangeOracle) (opts : Opts) (portscanPortRange : list Portrange)
  (net : Network).

Lemma pushes_between_Cleanup r (w : World) : pushes_between r 0 w (Cleanup ro w).
Proof. exists []. split; [by rewrite app_nil_r|]. lia. Qed.

Lemma pushes_between_pushResults r (w : World) :
  pushes_between r 0 w (pushResults ro w).
Proof. eexists. split; [apply pushResults_log|]. lia. Qed.

(** A cached result is pushed by every [pushResults]. *)
Lemma pushes_between_pushResults_cached r ip rs (w : World) :
  List (scanner w) !! ip = Some rs → r ∈ rs →
  pushes_between r 1 w (pushResults ro w).
Proof.
  intros Hip Hr. eexists. split; [apply pushResults_log|].
  apply emissions_ResultPush, elem_of_concat. exists rs. split; [|done].
  apply list_elem_of_fmap. exists (ip, rs). split; [done|].
  by apply elem_of_range_entries.
Qed.

Lemma pushes_between_Publish_cached r ip rs (w : World) :
  List (scanner w) !! ip = Some rs → r ∈ rs →
  pushes_between r 1 w (Publish ro w).
Proof.
  intros Hip Hr. unfold Publish.
  apply (pushes_between_trans r 0 1 _ (emit ResultCleanup w));
    [apply pushes_between_emit|].
  by apply (pushes_between_pushResults_cached r ip rs).
Qed.

Lemma pushes_between_Publish r (w : World) : pushes_between r 0 w (Publish ro w).
Proof.
  unfold Publish.
  apply (pushes_between_trans r 0 0 _ (emit ResultCleanup w));
    [apply pushes_between_emit|apply pushes_between_pushResults].
Qed.

(** What [scanIp] finds depends on the address string of [pip] and on the
    discovery set alone. *)
Lemma scanIp_ext pip pip' timeout (c c' : Portscanner) :
  to_String (IPAddress pip) = to_String (IPAddress pip') →
  PublicIps c = PublicIps c' →
  scanIp opts portscanPortRange net pip timeout c
  = scanIp opts portscanPortRange net pip' timeout c'.
Proof. unfold scanIp. by intros -> ->. Qed.

Lemma scanIp_owned pip timeout (c : Portscanner) r :
  r ∈ (scanIp opts portscanPortRange net pip timeout c).1 →
  is_Some (PublicIps c !! to_String (IPAddress pip)).
Proof.
  unfold scanIp. destruct (PublicIps c !! to_String (IPAddress pip)); [by eauto|].
  by intros ?%elem_of_nil.
Qed.

Lemma scanTask_unfold pip timeout (w : World) :
  scanTask ro opts portscanPortRange net pip timeout w
  = addResults ro pip (scanIp opts portscanPortRange net pip timeout (scanner w)).1
      (emit (FinishScanIpAdress pip
               (scanIp opts portscanPortRange net pip timeout (scanner w)).2)
         (emit (StartScanIpAdress pip) w)).
Proof.
  unfold scanTask.
  change (scanner (emit (StartScanIpAdress pip) w)) with (scanner w).
  by destruct (scanIp _ _ _ _ _ _).
Qed.

Lemma scanTask_PublicIps pip timeout (w : World) :
  PublicIps (scanner (scanTask ro opts portscanPortRange net pip timeout w))
  = PublicIps (scanner w).
Proof. rewrite scanTask_unfold. unfold addResults. by rewrite pushResults_scanner. Qed.

Lemma scanTask_List pip timeout (w : World) :
  List (scanner (scanTask ro opts portscanPortRange net pip timeout w))
  = <[to_String (IPAddress pip) :=
        (scanIp opts portscanPortRange net pip timeout (scanner w)).1]>
      (List (scanner w)).
Proof. rewrite scanTask_unfold. unfold addResults. by rewrite pushResults_scanner. Qed.

Lemma pushes_between_scanTask r pip timeout (w : World) :
  pushes_between r 0 w (scanTask ro opts portscanPortRange net pip timeout w).
Proof.
  rewrite scanTask_unfold. unfold addResults.
  set (w1 := emit (StartScanIpAdress pip) w).
  set (w2 := emit (FinishScanIpAdress pip _) w1).
  apply (pushes_between_trans r 0 0 w w1); [apply pushes_between_emit|].
  apply (pushes_between_trans r 0 0 w1 w2); [apply pushes_between_emit|].
  set (c := with_List _ _).
  destruct (pushes_between_pushResults r (with_scanner c w2)) as (es & Hes & Hn).
  by exists es.
Qed.

(** The scan of an address pushes, among all the cache, what it found and
    whatever the cache holds for the other addresses. *)
Lemma pushes_between_scanTask_cached r ip rs pip timeout (w : World) :
  List (scanner (scanTask ro opts portscanPortRange net pip timeout w)) !! ip
    = Some rs →
  r ∈ rs →
  pushes_between r 1 w (scanTask ro opts portscanPortRange net pip timeout w).
Proof.
  rewrite scanTask_List. rewrite scanTask_unfold. unfold addResults.
  intros Hip Hr.
  set (w1 := emit (StartScanIpAdress pip) w).
  set (w2 := emit (FinishScanIpAdress pip _) w1).
  apply (pushes_between_trans r 0 1 w w1); [apply pushes_between_emit|].
  apply (pushes_between_trans r 0 1 w1 w2); [apply pushes_between_emit|].
  set (c := with_List _ _).
  destruct (pushes_between_pushResults_cached r ip rs (with_scanner c w2) Hip Hr)
    as (es & Hes & Hn).
  by exists es.
Qed.

(** Once the scan of [pip] is cached, the goroutines that follow leave it
    there (one that scans the same address string finds the same), and each
    of them pushes it once more. *)
Lemma pushes_between_scanTasks_after r pip timeout
    (pips : list (string * PublicIPAddress)) (w : World) :
  let rs := (scanIp opts portscanPortRange net pip timeout (scanner w)).1 in
  let w' := foldl (λ w '(_, pip),
              scanTask ro opts portscanPortRange net pip timeout w) w pips in
  List (scanner w) !! to_String (IPAddress pip) = Some rs →
  r ∈ rs →
  pushes_between r (length pips) w w'
  ∧ List (scanner w') !! to_String (IPAddress pip) = Some rs
  ∧ PublicIps (scanner w') = PublicIps (scanner w).
Proof.
  cbv zeta. revert w. induction pips as [|[ip' pip'] pips IH]; intros w Hc Hr.
  - split; [apply pushes_between_refl|done].
  - cbn [foldl length].
    set (w1 := scanTask ro opts portscanPortRange net pip' timeout w).
    assert (PublicIps (scanner w1) = PublicIps (scanner w)) as Hp
      by apply scanTask_PublicIps.
    assert (scanIp opts portscanPortRange net pip timeout (scanner w1)
            = scanIp opts portscanPortRange net pip timeout (scanner w)) as Hs
      by by apply scanIp_ext.
    assert (List (scanner w1) !! to_String (IPAddress pip)
            = Some (scanIp opts portscanPortRange net pip timeout (scanner w)).1) as Hc1.
    { unfold w1. rewrite scanTask_List.
      destruct (decide (to_String (IPAddress pip') = to_String (IPAddress pip))) as [He|Hne].
      - rewrite He, lookup_insert_eq. f_equal. f_equal. by apply scanIp_ext.
      - by rewrite lookup_insert_ne. }
    destruct (IH w1) as (Hpb & Hl & Hps); [by rewrite Hs|by rewrite Hs|].
    rewrite Hs in Hl. rewrite Hp in Hps. split; [|done].
    change (S (length pips)) with (1 + length pips).
    apply (pushes_between_trans r 1 (length pips) w w1); [|done].
    by apply (pushes_between_scanTask_cached r (to_String (IPAddress pip))
                (scanIp opts portscanPortRange net pip timeout (scanner w)).1).
Qed.

Lemma pushes_between_scanTasks r timeout
    (pips : list (string * PublicIPAddress)) (w : World) :
  let w' := foldl (λ w '(_, pip),
              scanTask ro opts portscanPortRange net pip timeout w) w pips in
  pushes_between r 0 w w' ∧ PublicIps (scanner w') = PublicIps (scanner w).
Proof.
  cbv zeta. revert w. induction pips as [|[ip' pip'] pips IH]; intros w.
  - split; [apply pushes_between_refl|done].
  - cbn [foldl]. destruct (IH (scanTask ro opts portscanPortRange net pip' timeout w))
      as [Hpb Hp].
    rewrite scanTask_PublicIps in Hp. split; [|done].
    apply (pushes_between_trans r 0 0 w _ _ (pushes_between_scanTask r pip' timeout w) Hpb).
Qed.

End pass_facts.

(** ** Every [addResults] of a pass pushes the whole cache again *)

Lemma push_each_tick (rs : list PortscannerResult) (w : World) :
  tick (foldl (λ w r, emit (ResultPush r) w) w rs) = tick w.
Proof. revert w. induction rs as [|r rs IH]; intros w; simpl; [done|]. by rewrite IH. Qed.

Lemma push_all_tick (entries : list (string * list PortscannerResult)) (w : World) :
  tick (foldl (λ w '(_, rs), foldl (λ w r, emit (ResultPush r) w) w rs) w entries)
  = tick w.
Proof.
  revert w. induction entries as [|[ip rs] entries IH]; intros w; simpl; [done|].
  by rewrite IH, push_each_tick.
Qed.

Section republication.
Context (ro : RangeOracle) (opts : Opts) (portscanPortRange : list Portrange)
  (net : Network).

Lemma Publish_tick (w : World) : tick (Publish ro w) = S (tick w).
Proof. unfold Publish, pushResults. by rewrite push_all_tick. Qed.

(** The order in which [Start] takes the addresses: that of its third map
    iteration, after those of the first [Cleanup] and [Publish]. *)
Lemma Start_unfold (w : World) :
  let timeout := int64 (Portscan_Timeout opts * time_Second) in
  let w1 := Publish ro (Cleanup ro (emit StartupScan w)) in
  Start ro opts portscanPortRange net w
  = emit FinishScan (Publish ro (Cleanup ro
      (foldl (λ w '(_, pip), scanTask ro opts portscanPortRange net pip timeout w)
         (next_range w1)
         (shuffle ro (2 + tick w) (map_to_list (PublicIps (scanner w))))))).
Proof.
  cbv zeta. unfold Start, range_entries.
  by rewrite Publish_tick, Publish_scanner.
Qed.

Lemma Start_pushes (w : World) (j : nat) ip pip r :
  let timeout := int64 (Portscan_Timeout opts * time_Second) in
  shuffle ro (2 + tick w) (map_to_list (PublicIps (scanner w))) !! j = Some (ip, pip) →
  r ∈ (scanIp opts portscanPortRange net pip timeout (scanner w)).1 →
  size (PublicIps (scanner w)) - j + 1
  ≤ emissions r (emitted_since w (Start ro opts portscanPortRange net w)).
Proof.
  cbv zeta. intros Hj Hr. apply pushes_between_emitted.
  rewrite Start_unfold. cbv zeta.
  set (timeout := int64 (Portscan_Timeout opts * time_Second)) in *.
  set (order := shuffle ro (2 + tick w) (map_to_list (PublicIps (scanner w)))) in *.
  set (task := λ (w : World) '(_, pip),
         scanTask ro opts portscanPortRange net pip timeout w).
  set (a := to_String (IPAddress pip)).
  set (rs := (scanIp opts portscanPortRange net pip timeout (scanner w)).1) in *.
  assert (length order = size (PublicIps (scanner w))) as Hlen.
  { unfold order. by rewrite (shuffle_perm ro), length_map_to_list. }
  pose proof (lookup_lt_Some _ _ _ Hj) as Hlt.
  rewrite <- (take_drop_middle _ _ _ Hj), foldl_app. cbn [foldl].
  set (w1 := next_range (Publish ro (Cleanup ro (emit StartupScan w)))).
  assert (pushes_between r 0 w w1 ∧ PublicIps (scanner w1) = PublicIps (scanner w))
    as [H01 Hp1].
  { split; [|unfold w1; simpl; by rewrite Publish_scanner].
    destruct (pushes_between_trans r 0 0 _ _ _
      (pushes_between_trans r 0 0 _ _ _ (pushes_between_emit r StartupScan w)
         (pushes_between_Cleanup ro r (emit StartupScan w)))
      (pushes_between_Publish ro r (Cleanup ro (emit StartupScan w))))
      as (es & Hes & Hn).
    by exists es. }
  set (w2 := foldl task w1 (take j order)).
  destruct (pushes_between_scanTasks ro opts portscanPortRange net r timeout
              (take j order) w1) as [H12 Hp2].
  fold task in H12, Hp2. fold w2 in H12, Hp2. rewrite Hp1 in Hp2.
  set (w3 := scanTask ro opts portscanPortRange net pip timeout w2).
  assert (scanIp opts portscanPortRange net pip timeout (scanner w2)
          = scanIp opts portscanPortRange net pip timeout (scanner w)) as Hs2
    by by apply scanIp_ext.
  assert (PublicIps (scanner w3) = PublicIps (scanner w)) as Hp3.
  { unfold w3. by rewrite scanTask_PublicIps. }
  assert (scanIp opts portscanPortRange net pip timeout (scanner w3)
          = scanIp opts portscanPortRange net pip timeout (scanner w)) as Hs3
    by by apply scanIp_ext.
  assert (List (scanner w3) !! a = Some rs) as Hl3.
  { unfold w3. rewrite scanTask_List, lookup_insert_eq. by rewrite Hs2. }
  assert (pushes_between r 1 w2 w3) as H23.
  { by apply (pushes_between_scanTask_cached ro opts portscanPortRange net r a rs). }
  set (w4 := foldl task w3 (drop (S j) order)).
  destruct (pushes_between_scanTasks_after ro opts portscanPortRange net r pip timeout
              (drop (S j) order) w3) as (H34 & Hl4 & Hp4);
    [by rewrite Hs3|by rewrite Hs3|].
  fold task in H34, Hl4, Hp4. fold w4 in H34, Hl4, Hp4.
  rewrite Hs3 in Hl4. fold rs a in Hl4. rewrite Hp3 in Hp4.
  assert (List (scanner (Cleanup ro w4)) !! a = Some rs) as Hl5.
  { rewrite Cleanup_lookup, Hp4.
    destruct (scanIp_owned opts portscanPortRange net pip timeout (scanner w) r Hr)
      as [owner Ho].
    fold a in Ho. by rewrite Ho. }
  pose proof (pushes_between_Cleanup ro r w4) as H45.
  pose proof (pushes_between_Publish_cached ro r a rs _ Hl5 Hr) as H56.
  pose proof (pushes_between_emit r FinishScan (Publish ro (Cleanup ro w4))) as H67.
  rewrite length_drop in H34.
  replace (size (PublicIps (scanner w)) - j + 1)
    with (0 + 0 + 1 + (length order - S j) + 0 + 1 + 0) by lia.
  repeat (eapply pushes_between_trans; [|eassumption]). done.
Qed.

(** C10: a call of [addResults] hands to [ResultPush] every result of every
    address cached once the new entry is in, not only [results]. So in a
    pass over the M addresses of the discovery set, what the scan of the
    address taken in place [j] (from 0) finds is pushed by that scan, by each
    of the scans that follow it, and by the closing [Publish]: M - j + 1
    times at least, M + 1 times for the address taken first. *)
Theorem addResults_republishes_cache :
  (∀ pip results (w : World),
     let w' := addResults ro pip results w in
     (∃ entries, entries ≡ₚ map_to_list (List (scanner w'))
        ∧ emitted_since w w' = ResultPush <$> concat entries.*2)
     ∧ (∀ ip rs r, List (scanner w') !! ip = Some rs → r ∈ rs →
          r ∈ pushed (emitted_since w w'))
     ∧ (∀ r, r ∈ results → r ∈ pushed (emitted_since w w')))
  ∧ (∀ (w : World) (j : nat) ip pip r,
       let timeout := int64 (Portscan_Timeout opts * time_Second) in
       shuffle ro (2 + tick w) (map_to_list (PublicIps (scanner w))) !! j
         = Some (ip, pip) →
       r ∈ (scanIp opts portscanPortRange net pip timeout (scanner w)).1 →
       size (PublicIps (scanner w)) - j + 1
       ≤ emissions r (emitted_since w (Start ro opts portscanPortRange net w))).
Proof.
  split.
  - intros pip results w. apply addResults_pushes_whole_cache.
  - intros w j ip pip r. apply Start_pushes.
Qed.

End republication.

(** C10 at work: two addresses, 10.0.0.2 taken first; its open port is
    pushed three times in the pass. *)
Lemma addResults_republishes_cache_witness :
  let w := Scenario.world Scenario.two_cached Scenario.empty_disk in
  size (PublicIps (scanner w)) - 0 + 1
  ≤ emissions (Scenario.open_port "10.0.0.2" 443)
      (emitted_since w
         (Start Scenario.reversed Scenario.opts Scenario.portscanPortRange
            Scenario.net w)).
Proof.
  cbv zeta.
  apply (proj2 (addResults_republishes_cache Scenario.reversed Scenario.opts
                  Scenario.portscanPortRange Scenario.net)
           _ 0 "10.0.0.2" (Scenario.address "10.0.0.2")).
  - vm_compute. reflexivity.
  - vm_compute. left.
Defined.

(** ** Persistence *)








Section persistence_facts.
Context (ro : RangeOracle) (json : Json).

(** What [CacheLoad] does once the file is open, for a document other than
    null. *)
Lemma CacheLoad_open (path jsonContent : string) (snap : Snapshot)
    (err : option string) (w : World) :
  contents (disk w) !! path = Some jsonContent →
  json_Unmarshal json jsonContent = (Some snap, err) →
  let w1 := with_scanner (decode_into snap (scanner w)) w in
  let w2 := match err with
            | Some err => emit (LogError ("failed to load portscanner cache: " +:+ err)) w1
            | None => w1
            end in
  CacheLoad ro json path w = Done () (Publish ro (Cleanup ro w2)).
Proof.
  intros Hopen Hdec. cbv zeta. unfold CacheLoad. rewrite Hopen, Hdec. by destruct err.
Qed.



End persistence_facts.



(** The cache of the same portscanner, loaded from a document that has
    [List] at null: nothing of the cache is left. *)
Lemma CacheLoad_null_field_empties :
  let w := Scenario.world Scenario.two_cached
             (Scenario.disk_with Scenario.null_List_document) in
  ∃ w', CacheLoad Scenario.in_order Scenario.json Scenario.cache_file w = Done () w'
      ∧ List (scanner w') = ∅
      ∧ PublicIps (scanner w') = PublicIps (scanner w)
      ∧ emitted_since w w' = [ResultCleanup].
Proof.
  cbv zeta.
  exists (final (CacheLoad Scenario.in_order Scenario.json Scenario.cache_file
                   (Scenario.world Scenario.two_cached
                      (Scenario.disk_with Scenario.null_List_document)))).
  split; [vm_compute; reflexivity|]. split; [vm_compute; reflexivity|].
  split; vm_compute; reflexivity.
Qed.


(** The document null, which decodes without an error: [CacheLoad] panics
    on the nil pointer it is left with. *)
Lemma CacheLoad_null_document_panics :
  let w := Scenario.world Scenario.two_cached
             (Scenario.disk_with Scenario.null_document) in
  json_Unmarshal Scenario.json Scenario.null_document = (None, None)
  ∧ CacheLoad Scenario.in_order Scenario.json Scenario.cache_file w
    = Panicked nil_dereference w.
Proof. cbv zeta. split; vm_compute; reflexivity. Qed.

(** ** The collection cycle: panics *)

Section panic_facts.
Context {S : Type}.

Lemma panics_bind_l {A B} (m : Go S A) (k : A → Go S B) s :
  panics (m s) → panics ((m ≫= k) s).
Proof. unfold mbind, Go_bind. by destruct (m s). Qed.

Lemma panics_bind_r {A B} (m : Go S A) (k : A → Go S B) s :
  (∀ a s', panics (k a s')) → panics ((m ≫= k) s).
Proof. intros Hk. unfold mbind, Go_bind. destruct (m s); [apply Hk|done]. Qed.

Lemma panics_for_each {A} (l : list A) (body : A → Go S unit) x :
  x ∈ l → (∀ s, panics (body x s)) → ∀ s, panics (for_each l body s).
Proof.
  intros Hx Hbody. induction l as [|y l IH]; [by apply elem_of_nil in Hx|].
  intros s. cbn [for_each]. apply elem_of_cons in Hx as [<-|Hx].
  - by apply panics_bind_l.
  - apply panics_bind_r. intros _ s'. by apply IH.
Qed.

Lemma panics_fold_each {A B} (l : list A) (body : B → A → Go S B) x :
  x ∈ l → (∀ b s, panics (body b x s)) → ∀ b s, panics (fold_each l b body s).
Proof.
  intros Hx Hbody. induction l as [|y l IH]; [by apply elem_of_nil in Hx|].
  intros b s. cbn [fold_each]. apply elem_of_cons in Hx as [<-|Hx].
  - by apply panics_bind_l.
  - apply panics_bind_r. intros b' s'. by apply IH.
Qed.

Lemma panics_survives {A} (o : Outcome S A) : panics o → survives o = None.
Proof. by destruct o. Qed.

End panic_facts.

Section cycle_panics.
Context (opts : Opts) (AZURE_RESOURCEGROUP_TAG_PREFIX : string)
  (ParseFloat : string → option float64) (api : AzureApi) (sched : Schedule).

(** A collector whose call fails panics, whatever the registry holds. *)
Lemma collect_panics c subscriptionId :
  fetch_fails opts api c subscriptionId →
  ∀ r, panics (collect opts AZURE_RESOURCEGROUP_TAG_PREFIX ParseFloat api c
                 subscriptionId r).
Proof.
  destruct c; unfold fetch_fails, collect.
  - intros [err Herr] r. unfold collectAzureSubscription. rewrite Herr. exact I.
  - intros [err Herr] r. unfold collectAzureResourceGroup. rewrite Herr. exact I.
  - intros [err Herr] r. apply panics_bind_l.
    unfold collectAzurePublicIp. rewrite Herr. exact I.
  - intros (location & err & Hin & Herr). unfold collectAzureComputeUsage.
    apply (panics_for_each _ _ location); [exact Hin|].
    intros r. rewrite Herr. exact I.
  - intros (Hne & err & Herr). unfold collectAzureStorageUsage.
    destruct (AzureLocation opts) as [|location l]; [by destruct Hne|].
    apply (panics_for_each _ _ location); [left|].
    intros r. rewrite Herr. exact I.
Qed.

Lemma collectSubscription_panics c subscription subscriptionId :
  SubscriptionID subscription = Some subscriptionId →
  fetch_fails opts api c subscriptionId →
  ∀ r, panics (collectSubscription opts AZURE_RESOURCEGROUP_TAG_PREFIX ParseFloat api
                 subscription r).
Proof.
  intros Hid Hfail r. pose proof (collect_panics c subscriptionId Hfail) as Hc.
  unfold collectSubscription. rewrite Hid.
  assert (∀ r0, panics
    ((collectAzureSubscription ParseFloat api subscriptionId ;;
      collectAzureResourceGroup opts AZURE_RESOURCEGROUP_TAG_PREFIX api subscriptionId ;;
      ipAddressList ← collectAzurePublicIp api subscriptionId;
      collectAzureComputeUsage opts api subscriptionId ;;
      collectAzureStorageUsage opts api subscriptionId ;;
      mret ipAddressList) r0)) as Hall.
  { intros r0. destruct c; unfold collect in Hc.
    - apply panics_bind_l, Hc.
    - apply panics_bind_r. intros _ r1. apply panics_bind_l, Hc.
    - apply panics_bind_r. intros _ r1. apply panics_bind_r. intros _ r2.
      specialize (Hc r2). unfold mbind, Go_bind in Hc |- *.
      destruct (collectAzurePublicIp api subscriptionId r2); [destruct Hc|exact I].
    - apply panics_bind_r. intros _ r1. apply panics_bind_r. intros _ r2.
      apply panics_bind_r. intros l r3. apply panics_bind_l, Hc.
    - apply panics_bind_r. intros _ r1. apply panics_bind_r. intros _ r2.
      apply panics_bind_r. intros l r3. apply panics_bind_r. intros _ r4.
      apply panics_bind_l, Hc. }
  exact (Hall r).
Qed.

(** C4, as the code has it: a collector whose call to the API fails
    panics, and the goroutine it runs in recovers nothing. So when any call
    of any collector fails for any subscription of the cycle, the cycle ends
    in a panic and nothing survives it: the failure is not held at the
    collector, and the collectors beside it are given no chance to deliver. *)
Theorem fetch_failure_ends_cycle (AzureSubscriptions : list Subscription)
    (subscription : Subscription) (subscriptionId : string) (c : Collector)
    (r : Registry) :
  subscription ∈ AzureSubscriptions →
  SubscriptionID subscription = Some subscriptionId →
  fetch_fails opts api c subscriptionId →
  panics (collect opts AZURE_RESOURCEGROUP_TAG_PREFIX ParseFloat api c subscriptionId r)
  ∧ panics (runMetricsCollectionAzureRm opts AZURE_RESOURCEGROUP_TAG_PREFIX ParseFloat
              api sched AzureSubscriptions r)
  ∧ survives (runMetricsCollectionAzureRm opts AZURE_RESOURCEGROUP_TAG_PREFIX ParseFloat
                api sched AzureSubscriptions r) = None.
Proof.
  intros Hin Hid Hfail. split; [apply collect_panics, Hfail|].
  assert (panics (runMetricsCollectionAzureRm opts AZURE_RESOURCEGROUP_TAG_PREFIX
                    ParseFloat api sched AzureSubscriptions r)) as Hp.
  { unfold runMetricsCollectionAzureRm.
    apply panics_bind_r. intros _ r1. apply panics_bind_r. intros _ r2.
    apply panics_bind_l.
    apply (panics_fold_each _ _ subscription); [exact Hin|].
    intros sent r3. apply panics_bind_l.
    apply (collectSubscription_panics c subscription subscriptionId Hid Hfail). }
  split; [exact Hp|]. apply panics_survives, Hp.
Qed.

End cycle_panics.

(** C4 as stated fails: the compute usage call fails while the resource
    group call answers, and the cycle ends in the panic of the compute usage
    collector; no registry with resource group gauges is left. *)
Lemma failed_fetch_takes_cycle_down :
  let cycle := runMetricsCollectionAzureRm Scenario.opts "tag_" Scenario.ParseFloat
                 Scenario.api_quota_down Scenario.in_turn [Scenario.subscription]
                 Scenario.after_first_cycle in
  groups_ListComplete Scenario.api_quota_down "S" = Ok (Some [Scenario.group])
  ∧ compute_usage_List Scenario.api_quota_down "S" "westeurope"
    = Err "compute.UsageClient#List: StatusCode=503"
  ∧ match cycle with
    | Done _ _ => False
    | Panicked err _ => err = "compute.UsageClient#List: StatusCode=503"
    end
  ∧ survives cycle = None.
Proof.
  cbv zeta. split; [reflexivity|]. split; [reflexivity|].
  split; vm_compute; reflexivity.
Qed.

(** C4 at work, on the same cycle. *)
Lemma fetch_failure_ends_cycle_witness :
  survives (runMetricsCollectionAzureRm Scenario.opts "tag_" Scenario.ParseFloat
              Scenario.api_quota_down Scenario.in_turn [Scenario.subscription]
              Scenario.after_first_cycle) = None.
Proof.
  refine (proj2 (proj2 (fetch_failure_ends_cycle Scenario.opts "tag_"
           Scenario.ParseFloat Scenario.api_quota_down Scenario.in_turn
           [Scenario.subscription] Scenario.subscription "S" ComputeUsageCollector
           Scenario.after_first_cycle _ _ _))).
  - left.
  - reflexivity.
  - exists "westeurope", "compute.UsageClient#List: StatusCode=503".
    split; [left|reflexivity].
Defined.

(** ** The collection cycle: what is reset and what is kept *)

Section respects_facts.
Context {S : Type} (R : relation S) `{!PreOrder R}.

Lemma respects_ret {A} (a : A) : respects R (mret a : Go S A).
Proof. intros s. simpl. reflexivity. Qed.

Lemma respects_panic {A} err : respects R (panic err : Go S A).
Proof. intros s. simpl. reflexivity. Qed.

Lemma respects_deref {A} (p : option A) : respects R (deref p : Go S A).
Proof. destruct p; [apply respects_ret|apply respects_panic]. Qed.

Lemma respects_modify (f : S → S) : (∀ s, R s (f s)) → respects R (modify f).
Proof. intros Hf s. apply Hf. Qed.

Lemma respects_bind {A B} (m : Go S A) (k : A → Go S B) :
  respects R m → (∀ a, respects R (k a)) → respects R (m ≫= k).
Proof.
  intros Hm Hk s. specialize (Hm s). unfold mbind, Go_bind.
  destruct (m s) as [a s'|err s']; [|exact Hm].
  simpl in Hm. etrans; [exact Hm|apply Hk].
Qed.

Lemma respects_for_each {A} (l : list A) (body : A → Go S unit) :
  (∀ x, respects R (body x)) → respects R (for_each l body).
Proof.
  intros Hbody. induction l as [|x l IH]; cbn [for_each].
  - apply respects_ret.
  - apply respects_bind; [apply Hbody|]. intros _. exact IH.
Qed.

Lemma respects_fold_each {A B} (l : list A) (b : B) (body : B → A → Go S B) :
  (∀ b x, respects R (body b x)) → respects R (fold_each l b body).
Proof.
  intros Hbody. revert b. induction l as [|x l IH]; intros b; cbn [fold_each].
  - apply respects_ret.
  - apply respects_bind; [apply Hbody|]. intros b'. apply IH.
Qed.

End respects_facts.

Lemma respects_weaken {S A} (R R' : relation S) (m : Go S A) :
  (∀ s s', R s s' → R' s s') → respects R m → respects R' m.
Proof. intros HR Hm s. apply HR, Hm. Qed.

#[local] Instance only_sets_preorder owned : PreOrder (only_sets owned).
Proof.
  split.
  - intros r g. split; [done|done].
  - intros r1 r2 r3 H12 H23 g. destruct (H12 g) as [Hd Hf], (H23 g) as [Hd' Hf'].
    split; [by etrans|]. intros Ho. by rewrite Hf', Hf.
Qed.

#[local] Instance keeps_preorder kept : PreOrder (keeps kept).
Proof.
  split.
  - by intros r g _.
  - intros r1 r2 r3 H12 H23 g Hg. etrans; [by apply H12|by apply H23].
Qed.

Lemma only_sets_keeps owned kept r r' : only_sets owned r r' → keeps kept r r'.
Proof. intros H g _. apply H. Qed.

Lemma vec_update_vec g f r g' :
  vec (update_vec g f r) g' = if decide (g' = g) then f (vec r g') else vec r g'.
Proof. by destruct g'. Qed.

Lemma respects_With_Set owned g labels v :
  owned g = true → respects (only_sets owned) (With_Set g labels v).
Proof.
  intros Ho. apply respects_modify. intros r g'. rewrite vec_update_vec.
  destruct (decide (g' = g)) as [->|Hne].
  - split; [|congruence]. rewrite dom_insert_L. set_solver.
  - done.
Qed.

Lemma respects_With owned g labels :
  owned g = true → respects (only_sets owned) (With g labels).
Proof.
  intros Ho. apply respects_modify. intros r g'. rewrite vec_update_vec.
  destruct (decide (g' = g)) as [->|Hne]; [|done].
  split; [|congruence]. destruct (vec r g !! labels); [done|].
  rewrite dom_insert_L. set_solver.
Qed.

Lemma respects_ErrorLogger_Error owned msg :
  respects (only_sets owned) (ErrorLogger_Error msg).
Proof. apply respects_modify. intros r g. by destruct g. Qed.

Lemma respects_Reset kept g : kept g = false → respects (keeps kept) (Reset g).
Proof.
  intros Hk. apply respects_modify. intros r g' Hg'. rewrite vec_update_vec.
  rewrite decide_False; [done|]. congruence.
Qed.

Ltac respects_go :=
  repeat first
    [ simple apply respects_ret; apply _
    | simple apply respects_panic; apply _
    | simple apply respects_deref; apply _
    | simple apply respects_ErrorLogger_Error
    | simple apply respects_With_Set; reflexivity
    | simple apply respects_bind; [apply _| |intros ?]
    | simple apply respects_for_each; [apply _|intros ?]
    | simple apply respects_fold_each; [apply _|intros ? ?]
    | match goal with
      | |- respects _ (match ?x with _ => _ end) => destruct x
      end ].

Section cycle_keeps.
Context (opts : Opts) (AZURE_RESOURCEGROUP_TAG_PREFIX : string)
  (ParseFloat : string → option float64) (api : AzureApi) (sched : Schedule).

Lemma probeProcessHeader_only_sets owned response header labels :
  owned prometheusApiQuota = true →
  respects (only_sets owned) (probeProcessHeader ParseFloat response header labels).
Proof.
  intros Ho. unfold probeProcessHeader. cbv zeta.
  destruct (decide _); [|(simple apply respects_ret; apply _)].
  destruct (ParseFloat _); [by apply respects_With_Set|apply respects_ErrorLogger_Error].
Qed.

Lemma collectAzureSubscription_only_sets subscriptionId :
  respects (only_sets (writes SubscriptionCollector))
    (collectAzureSubscription ParseFloat api subscriptionId).
Proof.
  unfold collectAzureSubscription.
  destruct (subscriptions_Get api subscriptionId); [|(simple apply respects_panic; apply _)].
  repeat first [ apply probeProcessHeader_only_sets; reflexivity | progress respects_go ].
Qed.

Lemma collectAzureResourceGroup_only_sets subscriptionId :
  respects (only_sets (writes ResourceGroupCollector))
    (collectAzureResourceGroup opts AZURE_RESOURCEGROUP_TAG_PREFIX api subscriptionId).
Proof. unfold collectAzureResourceGroup. respects_go. Qed.

Lemma collectAzurePublicIp_only_sets subscriptionId :
  respects (only_sets (writes PublicIpCollector))
    (collectAzurePublicIp api subscriptionId).
Proof. unfold collectAzurePublicIp. respects_go. Qed.

Lemma setQuota_only_sets c subscriptionId location scope val :
  writes c prometheusQuota = true →
  writes c prometheusQuotaCurrent = true →
  writes c prometheusQuotaLimit = true →
  respects (only_sets (writes c)) (setQuota subscriptionId location scope val).
Proof.
  intros H1 H2 H3. unfold setQuota.
  repeat first [ apply respects_With_Set; assumption
               | apply respects_With; assumption
               | progress respects_go ].
Qed.

Lemma collectAzureComputeUsage_only_sets subscriptionId :
  respects (only_sets (writes ComputeUsageCollector))
    (collectAzureComputeUsage opts api subscriptionId).
Proof.
  unfold collectAzureComputeUsage.
  repeat first [ apply setQuota_only_sets; reflexivity | progress respects_go ].
Qed.

Lemma collectAzureStorageUsage_only_sets subscriptionId :
  respects (only_sets (writes StorageUsageCollector))
    (collectAzureStorageUsage opts api subscriptionId).
Proof.
  unfold collectAzureStorageUsage.
  repeat first [ apply setQuota_only_sets; reflexivity | progress respects_go ].
Qed.

Lemma collect_only_sets c subscriptionId :
  respects (only_sets (writes c))
    (collect opts AZURE_RESOURCEGROUP_TAG_PREFIX ParseFloat api c subscriptionId).
Proof.
  destruct c; unfold collect.
  - apply collectAzureSubscription_only_sets.
  - apply collectAzureResourceGroup_only_sets.
  - simple apply respects_bind; [apply _|apply collectAzurePublicIp_only_sets|].
    intros _. (simple apply respects_ret; apply _).
  - apply collectAzureComputeUsage_only_sets.
  - apply collectAzureStorageUsage_only_sets.
Qed.

Lemma collectSubscription_keeps kept subscription :
  respects (keeps kept)
    (collectSubscription opts AZURE_RESOURCEGROUP_TAG_PREFIX ParseFloat api subscription).
Proof.
  unfold collectSubscription.
  simple apply respects_bind; [apply _|simple apply respects_deref; apply _|].
  intros subscriptionId.
  simple apply respects_bind; [apply _| |].
  { eapply respects_weaken; [apply only_sets_keeps|].
    apply collectAzureSubscription_only_sets. }
  intros _. simple apply respects_bind; [apply _| |].
  { eapply respects_weaken; [apply only_sets_keeps|].
    apply collectAzureResourceGroup_only_sets. }
  intros _. simple apply respects_bind; [apply _| |].
  { eapply respects_weaken; [apply only_sets_keeps|].
    apply collectAzurePublicIp_only_sets. }
  intros ipAddressList. simple apply respects_bind; [apply _| |].
  { eapply respects_weaken; [apply only_sets_keeps|].
    apply collectAzureComputeUsage_only_sets. }
  intros _. simple apply respects_bind; [apply _| |].
  { eapply respects_weaken; [apply only_sets_keeps|].
    apply collectAzureStorageUsage_only_sets. }
  intros _. (simple apply respects_ret; apply _).
Qed.

Lemma runMetricsCollectionAzureRm_keeps AzureSubscriptions :
  respects (keeps (λ g, negb (reset_by_cycle g)))
    (runMetricsCollectionAzureRm opts AZURE_RESOURCEGROUP_TAG_PREFIX ParseFloat api sched
       AzureSubscriptions).
Proof.
  unfold runMetricsCollectionAzureRm.
  simple apply respects_bind; [apply _|by apply respects_Reset|]. intros _.
  simple apply respects_bind; [apply _|by apply respects_Reset|]. intros _.
  simple apply respects_bind; [apply _| |intros publicIpChannel;
                                         simple apply respects_ret; apply _].
  simple apply respects_fold_each; [apply _|]. intros sent subscription.
  simple apply respects_bind; [apply _|apply collectSubscription_keeps|].
  intros ipAddressList. (simple apply respects_ret; apply _).
Qed.

(** C8, as the code has it: no collector resets anything. Whether it
    returns or panics, a collector leaves every label set of every vector
    in place and touches no vector but those its code names. The cycle
    itself clears the resource group and the public IP vectors before the
    collectors start, so that what these two held has no bearing on its
    outcome; the subscription, rate limit and quota vectors are cleared by
    nobody, and their label sets outlive every cycle, completed or not. A
    compute usage collector whose first call fails panics with the registry
    as it found it. *)
Theorem collectors_never_reset :
  (∀ c subscriptionId r,
     only_sets (writes c) r
       (final (collect opts AZURE_RESOURCEGROUP_TAG_PREFIX ParseFloat api c
                 subscriptionId r)))
  ∧ (∀ AzureSubscriptions r,
       runMetricsCollectionAzureRm opts AZURE_RESOURCEGROUP_TAG_PREFIX ParseFloat api sched
         AzureSubscriptions r
       = runMetricsCollectionAzureRm opts AZURE_RESOURCEGROUP_TAG_PREFIX ParseFloat api sched
           AzureSubscriptions
           (update_vec prometheusPublicIp (λ _, ∅)
              (update_vec prometheusResourceGroup (λ _, ∅) r)))
  ∧ (∀ AzureSubscriptions r g,
       reset_by_cycle g = false →
       dom (vec r g)
       ⊆ dom (vec (final (runMetricsCollectionAzureRm opts
                            AZURE_RESOURCEGROUP_TAG_PREFIX ParseFloat api sched
                            AzureSubscriptions r)) g))
  ∧ (∀ subscriptionId location locations err r,
       AzureLocation opts = location :: locations →
       compute_usage_List api subscriptionId location = Err err →
       collectAzureComputeUsage opts api subscriptionId r = Panicked err r).
Proof.
  split; [|split; [|split]].
  - intros c subscriptionId r. apply collect_only_sets.
  - intros AzureSubscriptions r. reflexivity.
  - intros AzureSubscriptions r g Hg.
    apply (runMetricsCollectionAzureRm_keeps AzureSubscriptions r g).
    by rewrite Hg.
  - intros subscriptionId location locations err r Hloc Herr.
    unfold collectAzureComputeUsage. rewrite Hloc. cbn [for_each].
    unfold mbind, Go_bind. by rewrite Herr.
Qed.

End cycle_keeps.

(** C8 as stated fails: after a first cycle the quota vectors hold the
    gauges of the cores quota. A compute usage collector whose call then
    answers with no usage returns, and the gauge is still there: the
    collector did not reset the vectors it writes. And in the cycle of the
    claim, where the compute usage call fails, the panic of the collector
    leaves no registry with resource group gauges. *)
Lemma stale_quota_gauges_outlive_collector :
  let r := Scenario.after_first_cycle in
  let collected := collectAzureComputeUsage Scenario.opts Scenario.api_no_usage "S" r in
  let cycle := runMetricsCollectionAzureRm Scenario.opts "tag_" Scenario.ParseFloat
                 Scenario.api_quota_down Scenario.in_turn [Scenario.subscription] r in
  vec r prometheusQuotaCurrent !! Scenario.cores_labels = Some (Float64.of_Z 12)
  ∧ compute_usage_List Scenario.api_no_usage "S" "westeurope" = Ok []
  ∧ match collected with
    | Done _ r' =>
      vec r' prometheusQuotaCurrent !! Scenario.cores_labels = Some (Float64.of_Z 12)
    | Panicked _ _ => False
    end
  ∧ survives cycle = None.
Proof.
  cbv zeta. split; [vm_compute; reflexivity|]. split; [reflexivity|].
  split; vm_compute; reflexivity.
Qed.

(** ** The discovery set and the cache after a pass *)

Lemma lookup_foldl_insert_address (pipList : list PublicIPAddress)
    (m : gmap string PublicIPAddress) ip pip :
  foldl (λ m pip, <[to_String (IPAddress pip) := pip]> m) m pipList !! ip = Some pip →
  (pip ∈ pipList ∧ to_String (IPAddress pip) = ip) ∨ m !! ip = Some pip.
Proof.
  revert m. induction pipList as [|p pipList IH]; intros m; cbn [foldl]; [by right|].
  intros [[Hin Hip]|Hm]%IH.
  - left. split; [by right|done].
  - destruct (decide (to_String (IPAddress p) = ip)) as [Heq|Hne].
    + rewrite Heq, lookup_insert_eq in Hm. injection Hm as <-.
      left. split; [by left|done].
    + rewrite lookup_insert_ne in Hm by done. by right.
Qed.

Lemma is_Some_foldl_insert_address (pipList : list PublicIPAddress)
    (m : gmap string PublicIPAddress) ip :
  is_Some (m !! ip) ∨ (∃ pip, pip ∈ pipList ∧ to_String (IPAddress pip) = ip) →
  is_Some (foldl (λ m pip, <[to_String (IPAddress pip) := pip]> m) m pipList !! ip).
Proof.
  revert m. induction pipList as [|p pipList IH]; intros m; cbn [foldl].
  - intros [Hm|(pip & Hin & _)]; [done|by apply elem_of_nil in Hin].
  - intros [Hm|(pip & Hin & Hip)]; apply IH.
    + left. destruct (decide (to_String (IPAddress p) = ip)) as [<-|Hne].
      * rewrite lookup_insert_eq. by eexists.
      * by rewrite lookup_insert_ne.
    + apply elem_of_cons in Hin as [->|Hin].
      * left. rewrite Hip, lookup_insert_eq. by eexists.
      * right. by exists pip.
Qed.

(** [SetAzurePublicIpList] replaces the discovery set: the new set has the
    addresses of [pipList] as its keys and nothing of the set before, each
    key holding an element of the list with that address. The cache and the
    gate are not touched. *)
Theorem SetAzurePublicIpList_replaces (pipList : list PublicIPAddress) (w : World) :
  let c := scanner w in
  let c' := scanner (SetAzurePublicIpList pipList w) in
  (∀ ip, is_Some (PublicIps c' !! ip)
         ↔ ∃ pip, pip ∈ pipList ∧ to_String (IPAddress pip) = ip)
  ∧ (∀ ip pip, PublicIps c' !! ip = Some pip →
       pip ∈ pipList ∧ to_String (IPAddress pip) = ip)
  ∧ List c' = List c
  ∧ Enabled c' = Enabled c
  ∧ log (SetAzurePublicIpList pipList w) = log w.
Proof.
  cbv zeta. unfold SetAzurePublicIpList. cbn [scanner with_scanner PublicIps with_PublicIps].
  assert (∀ ip pip,
    foldl (λ m pip, <[to_String (IPAddress pip) := pip]> m)
      (∅ : gmap string PublicIPAddress) pipList !! ip = Some pip →
    pip ∈ pipList ∧ to_String (IPAddress pip) = ip) as Hsome.
  { intros ip pip [H|H]%lookup_foldl_insert_address; [done|].
    by rewrite lookup_empty in H. }
  split; [|split; [exact Hsome|done]].
  intros ip. split.
  - intros [pip Hpip]. exists pip. by apply Hsome.
  - intros H. apply is_Some_foldl_insert_address. by right.
Qed.

Section after_pass.
Context (ro : RangeOracle) (opts : Opts) (portscanPortRange : list Portrange)
  (net : Network).

(** After a pass, the cache holds discovered addresses only, and the
    discovery set is the one the pass started from. *)
Theorem Start_leaves_no_orphans (w : World) :
  let c' := scanner (Start ro opts portscanPortRange net w) in
  dom (List c') ⊆ dom (PublicIps c')
  ∧ PublicIps c' = PublicIps (scanner w).
Proof.
  cbv zeta. rewrite Start_unfold. cbv zeta.
  cbn [scanner emit]. rewrite Publish_scanner.
  set (w4 := foldl _ _ _).
  assert (PublicIps (scanner w4) = PublicIps (scanner w)) as Hp.
  { unfold w4.
    rewrite (proj2 (pushes_between_scanTasks ro opts portscanPortRange net
                      {| IpAddress := ""; ResultLabels := ∅; Value := Float64.zero |}
                      _ _ _)).
    cbn [scanner next_range]. by rewrite Publish_scanner. }
  split; [|by rewrite Cleanup_PublicIps].
  intros ip [rs Hrs]%elem_of_dom. rewrite Cleanup_lookup in Hrs.
  apply elem_of_dom. rewrite Cleanup_PublicIps.
  by destruct (PublicIps (scanner w4) !! ip).
Qed.

End after_pass.

(** The pass of the specification's scenario: 10.0.0.1 and 10.0.0.2 are
    discovered and port 22 is open on 10.0.0.1. The pass caches the open
    port for 10.0.0.1 and an empty result for 10.0.0.2; once the discovery
    set is replaced by 10.0.0.2 alone, [Cleanup] removes the entry of
    10.0.0.1. *)
Example scan_pass_then_eviction :
  let w := Scenario.world Scenario.two_discovered Scenario.empty_disk in
  let w1 := Start Scenario.in_order Scenario.opts Scenario.portscanPortRange
              Scenario.net_ssh w in
  let w2 := Cleanup Scenario.in_order
              (SetAzurePublicIpList [Scenario.address "10.0.0.2"] w1) in
  List (scanner w1)
    = {[ "10.0.0.1" := [Scenario.open_port "10.0.0.1" 22]; "10.0.0.2" := [] ]}
  ∧ List (scanner w2) = {[ "10.0.0.2" := [] ]}.
Proof. cbv zeta. split; vm_compute; reflexivity. Qed.

(** ** One scan per discovered address *)

Lemma started_app es1 es2 : started (es1 ++ es2) = started es1 ++ started es2.
Proof. apply omap_app. Qed.

Lemma started_ResultPush rs : started (ResultPush <$> rs) = [].
Proof. by induction rs. Qed.

Section one_scan_each.
Context (ro : RangeOracle) (opts : Opts) (portscanPortRange : list Portrange)
  (net : Network).

Lemma Publish_Cleanup_started (w : World) :
  ∃ es, log (Publish ro (Cleanup ro w)) = log w ++ es ∧ started es = [].
Proof.
  eexists. split.
  - unfold Publish. rewrite pushResults_log. cbn [log emit].
    rewrite Cleanup_log, <- app_assoc. reflexivity.
  - rewrite started_app. cbn [started omap]. apply started_ResultPush.
Qed.

Lemma scanTask_started pip timeout (w : World) :
  ∃ es, log (scanTask ro opts portscanPortRange net pip timeout w) = log w ++ es
    ∧ started es = [pip].
Proof.
  rewrite scanTask_unfold. unfold addResults. eexists. split.
  - rewrite pushResults_log. cbn [log emit with_scanner].
    rewrite <- !app_assoc. reflexivity.
  - rewrite !started_app, started_ResultPush. reflexivity.
Qed.

Lemma scanTasks_started timeout (pips : list (string * PublicIPAddress)) (w : World) :
  ∃ es, log (foldl (λ w '(_, pip),
               scanTask ro opts portscanPortRange net pip timeout w) w pips)
        = log w ++ es
    ∧ started es = pips.*2.
Proof.
  revert w. induction pips as [|[ip pip] pips IH]; intros w; cbn [foldl].
  - exists []. by rewrite app_nil_r.
  - destruct (scanTask_started pip timeout w) as (es1 & Hes1 & Hs1).
    destruct (IH (scanTask ro opts portscanPortRange net pip timeout w))
      as (es2 & Hes2 & Hs2).
    exists (es1 ++ es2). split.
    + by rewrite Hes2, Hes1, app_assoc.
    + by rewrite started_app, Hs1, Hs2.
Qed.

(** A pass scans every address of the discovery set once: the addresses
    handed to [StartScanIpAdress] during [Start] are those of the discovery
    set, each once, in the order of the map iteration. *)
Theorem Start_scans_each_address_once (w : World) :
  started (emitted_since w (Start ro opts portscanPortRange net w))
  ≡ₚ (map_to_list (PublicIps (scanner w))).*2.
Proof.
  rewrite Start_unfold. cbv zeta.
  set (timeout := int64 (Portscan_Timeout opts * time_Second)).
  set (order := shuffle ro (2 + tick w) (map_to_list (PublicIps (scanner w)))).
  destruct (Publish_Cleanup_started (emit StartupScan w)) as (es1 & Hes1 & Hs1).
  set (w1 := Publish ro (Cleanup ro (emit StartupScan w))) in *.
  destruct (scanTasks_started timeout order (next_range w1)) as (es2 & Hes2 & Hs2).
  set (w2 := foldl _ _ _) in *.
  destruct (Publish_Cleanup_started w2) as (es3 & Hes3 & Hs3).
  rewrite (emitted_since_app w _ ([StartupScan] ++ es1 ++ es2 ++ es3 ++ [FinishScan])).
  - rewrite !started_app, Hs1, Hs2, Hs3. cbn [started omap app].
    rewrite app_nil_r. unfold order. by rewrite (shuffle_perm ro).
  - cbn [log emit]. rewrite Hes3, Hes2. cbn [log next_range]. rewrite Hes1.
    cbn [log emit]. by rewrite <- !app_assoc.
Qed.

End one_scan_each.

(** ** The cache after a pass *)

Section scan_facts.
Context (ro : RangeOracle) (opts : Opts) (portscanPortRange : list Portrange)
  (net : Network).

Lemma scanTasks_keep_scanned pip timeout
    (pips : list (string * PublicIPAddress)) (w : World) :
  let rs := (scanIp opts portscanPortRange net pip timeout (scanner w)).1 in
  let w' := foldl (λ w '(_, pip),
              scanTask ro opts portscanPortRange net pip timeout w) w pips in
  List (scanner w) !! to_String (IPAddress pip) = Some rs →
  List (scanner w') !! to_String (IPAddress pip) = Some rs.
Proof.
  cbv zeta. revert w. induction pips as [|[ip' pip'] pips IH]; intros w Hc; [done|].
  cbn [foldl].
  set (w1 := scanTask ro opts portscanPortRange net pip' timeout w).
  assert (scanIp opts portscanPortRange net pip timeout (scanner w1)
          = scanIp opts portscanPortRange net pip timeout (scanner w)) as Hs.
  { apply scanIp_ext; [done|]. apply scanTask_PublicIps. }
  rewrite <- Hs. apply IH. rewrite Hs. unfold w1. rewrite scanTask_List.
  destruct (decide (to_String (IPAddress pip') = to_String (IPAddress pip)))
    as [He|Hne].
  - rewrite He, lookup_insert_eq. f_equal. f_equal. by apply scanIp_ext.
  - by rewrite lookup_insert_ne.
Qed.

Lemma scanTasks_cache_scanned ip pip timeout
    (pips : list (string * PublicIPAddress)) (w : World) :
  let w' := foldl (λ w '(_, pip),
              scanTask ro opts portscanPortRange net pip timeout w) w pips in
  (ip, pip) ∈ pips →
  List (scanner w') !! to_String (IPAddress pip)
  = Some (scanIp opts portscanPortRange net pip timeout (scanner w)).1.
Proof.
  cbv zeta. revert w. induction pips as [|[ip' pip'] pips IH]; intros w Hin.
  - by apply elem_of_nil in Hin.
  - cbn [foldl].
    set (w1 := scanTask ro opts portscanPortRange net pip' timeout w).
    assert (scanIp opts portscanPortRange net pip timeout (scanner w1)
            = scanIp opts portscanPortRange net pip timeout (scanner w)) as Hs.
    { apply scanIp_ext; [done|]. apply scanTask_PublicIps. }
    apply elem_of_cons in Hin as [Heq|Hin].
    + injection Heq as -> ->. rewrite <- Hs.
      apply scanTasks_keep_scanned. rewrite Hs. unfold w1.
      by rewrite scanTask_List, lookup_insert_eq.
    + rewrite <- Hs. by apply IH.
Qed.

(** When every entry of the discovery set sits under its own address, the
    cache after a pass is the scan of each discovered address and nothing
    else: what was cached before the pass is gone, found again or not. *)
Theorem Start_caches_the_scans (w : World) :
  keyed_by_address (scanner w) →
  let timeout := int64 (Portscan_Timeout opts * time_Second) in
  List (scanner (Start ro opts portscanPortRange net w))
  = (λ pip, (scanIp opts portscanPortRange net pip timeout (scanner w)).1)
    <$> PublicIps (scanner w).
Proof.
  intros Hkeyed. cbv zeta. apply map_eq. intros ip.
  rewrite lookup_fmap, Start_unfold. cbv zeta.
  cbn [scanner emit]. rewrite Publish_scanner, Cleanup_lookup.
  set (timeout := int64 (Portscan_Timeout opts * time_Second)).
  set (order := shuffle ro (2 + tick w) (map_to_list (PublicIps (scanner w)))).
  set (w1 := next_range (Publish ro (Cleanup ro (emit StartupScan w)))).
  assert (PublicIps (scanner w1) = PublicIps (scanner w)) as Hp1.
  { unfold w1. cbn [scanner next_range]. by rewrite Publish_scanner. }
  destruct (pushes_between_scanTasks ro opts portscanPortRange net
              {| IpAddress := ""; ResultLabels := ∅; Value := Float64.zero |}
              timeout order w1) as [_ Hp2].
  rewrite Hp2, Hp1.
  destruct (PublicIps (scanner w) !! ip) as [pip|] eqn:Hip; [|done].
  cbn [fmap option_fmap option_map].
  pose proof (Hkeyed ip pip Hip) as Haddr.
  assert ((ip, pip) ∈ order) as Hin.
  { unfold order. rewrite (shuffle_perm ro). by apply elem_of_map_to_list. }
  rewrite <- Haddr at 1.
  rewrite (scanTasks_cache_scanned ip pip timeout order w1 Hin).
  f_equal. f_equal. by apply scanIp_ext.
Qed.

End scan_facts.

(** The pass of [Scenario.not_enabled] with the gate open: the stale entry
    of 10.0.0.1 is gone and 10.0.0.2 holds its open port. *)
Lemma Start_caches_the_scans_witness :
  List (scanner (Start Scenario.in_order Scenario.opts Scenario.portscanPortRange
                   Scenario.net (Scenario.world Restart.saved Scenario.empty_disk)))
  = (λ pip, (scanIp Scenario.opts Scenario.portscanPortRange Scenario.net pip
               (int64 (Portscan_Timeout Scenario.opts * time_Second))
               Restart.saved).1)
    <$> PublicIps Restart.saved.
Proof.
  apply (Start_caches_the_scans Scenario.in_order Scenario.opts
           Scenario.portscanPortRange Scenario.net
           (Scenario.world Restart.saved Scenario.empty_disk)).
  intros ip pip Hip. cbn [scanner Scenario.world] in Hip.
  unfold Restart.saved, Scenario.not_enabled in Hip. cbn [PublicIps with_Enabled] in Hip.
  apply lookup_singleton_Some in Hip as [<- <-]. reflexivity.
Defined.

(** ** Eviction, again and again *)

Section eviction_facts.
Context (ro ro' : RangeOracle).

Lemma scanner_eq (c c' : Portscanner) :
  List c = List c' → PublicIps c = PublicIps c' → Enabled c = Enabled c' → c = c'.
Proof. destruct c, c'; simpl. by intros -> -> ->. Qed.

(** A cache without orphans is left alone by [Cleanup], and after one
    [Cleanup] a second one, whatever order it takes the map in, has nothing
    to evict. *)
Theorem Cleanup_settles (w : World) :
  (dom (List (scanner w)) ⊆ dom (PublicIps (scanner w)) →
     scanner (Cleanup ro w) = scanner w)
  ∧ scanner (Cleanup ro' (Cleanup ro w)) = scanner (Cleanup ro w).
Proof.
  assert (∀ ro0 (w0 : World),
    dom (List (scanner w0)) ⊆ dom (PublicIps (scanner w0)) →
    scanner (Cleanup ro0 w0) = scanner w0) as Hfix.
  { intros ro0 w0 Hsub. apply scanner_eq; [|done|done].
    apply map_eq. intros ip. rewrite Cleanup_lookup.
    destruct (PublicIps (scanner w0) !! ip) as [pip|] eqn:Hip; [done|].
    symmetry. apply not_elem_of_dom. intros Hin%Hsub.
    by apply not_elem_of_dom in Hip. }
  split; [apply Hfix|]. apply Hfix.
  intros ip [rs Hrs]%elem_of_dom. rewrite Cleanup_lookup in Hrs.
  apply elem_of_dom. rewrite Cleanup_PublicIps.
  by destruct (PublicIps (scanner w) !! ip).
Qed.

End eviction_facts.

(** ** Save, restart, load *)

Section restart_facts.
Context (ro : RangeOracle) (json : Json).

(** A cache saved by one process and loaded by the next. When the codec
    reads back what it wrote and the file can be written, [CacheSave]
    returns, and [CacheLoad] in a process that starts over on that disk
    returns without an error logged; the new process then holds the
    discovery set that was saved and the saved cache less its orphans, and
    its gate is closed, [Enabled] not being part of the document. *)
Theorem CacheSave_then_CacheLoad_restores (path : string) (w : World) :
  json_Unmarshal json (json_Marshal json (exported (scanner w)))
    = (Some (exported (scanner w)), None) →
  path ∉ unwritable (disk w) →
  ∃ w1 w2,
    CacheSave json path w = Done () w1
    ∧ CacheLoad ro json path (restart w1) = Done () w2
    ∧ PublicIps (scanner w2) = PublicIps (scanner w)
    ∧ (∀ ip, List (scanner w2) !! ip =
         match PublicIps (scanner w) !! ip with
         | Some _ => List (scanner w) !! ip
         | None => None
         end)
    ∧ Enabled (scanner w2) = false
    ∧ (∀ msg, LogError msg ∉ log w2).
Proof.
  intros Hcodec Hwritable.
  eexists _, _. split.
  { unfold CacheSave. rewrite decide_False by done. reflexivity. }
  set (w1 := {| scanner := scanner w; tick := tick w; log := log w; disk := _ |}).
  assert (contents (disk (restart w1)) !! path
          = Some (json_Marshal json (exported (scanner w)))) as Hopen.
  { unfold restart, Init, w1. cbn [disk with_scanner contents]. apply lookup_insert_eq. }
  split; [exact (CacheLoad_open ro json path _ _ _ (restart w1) Hopen Hcodec)|].
  rewrite Publish_scanner. fold w1.
  assert (decode_into (exported (scanner w)) (scanner (restart w1))
          = with_Enabled false (scanner w)) as Hdec.
  { apply scanner_eq; [| |done].
    - cbn. apply (right_id_L ∅ (∪)).
    - cbn. apply (right_id_L ∅ (∪)). }
  rewrite Hdec.
  split; [done|]. split; [|split; [done|]].
  - intros ip. by rewrite Cleanup_lookup.
  - intros msg Hin. unfold Publish in Hin. rewrite pushResults_log in Hin.
    cbn [log emit Cleanup with_scanner next_range restart Init] in Hin.
    apply elem_of_cons in Hin as [Hc|Hin]; [discriminate Hc|].
    apply list_elem_of_fmap in Hin as (r & Hc & _). discriminate Hc.
Qed.

End restart_facts.

(** The cache of [Restart.saved], saved and loaded by the next process:
    the orphan 10.0.0.1 does not come back. *)
Lemma CacheSave_then_CacheLoad_restores_witness :
  ∃ w1 w2,
    CacheSave Restart.json Scenario.cache_file
      (Scenario.world Restart.saved Scenario.empty_disk) = Done () w1
    ∧ CacheLoad Scenario.in_order Restart.json Scenario.cache_file (restart w1)
      = Done () w2
    ∧ List (scanner w2) !! "10.0.0.1" = None.
Proof.
  destruct (CacheSave_then_CacheLoad_restores Scenario.in_order Restart.json
              Scenario.cache_file (Scenario.world Restart.saved Scenario.empty_disk))
    as (w1 & w2 & Hsave & Hload & _ & Hlist & _).
  - reflexivity.
  - apply not_elem_of_empty.
  - exists w1, w2. split; [exact Hsave|]. split; [exact Hload|].
    rewrite Hlist. reflexivity.
Defined.

(** ** The resource group of a resource ID *)

Lemma substring_all (s : string) (m : nat) :
  String.length s ≤ m → String.substring 0 m s = s.
Proof.
  revert m. induction s as [|c s IH]; intros m Hm; destruct m as [|m]; simpl in *;
    try done; try lia.
  f_equal. apply IH. lia.
Qed.

Lemma substring_app_length (n r : string) (m : nat) :
  String.length r ≤ m → String.substring (String.length n) m (n +:+ r) = r.
Proof.
  intros Hm. induction n as [|c n IH]; simpl.
  - by apply substring_all.
  - exact IH.
Qed.

Lemma length_app_string (n r : string) :
  String.length (n +:+ r) = String.length n + String.length r.
Proof. induction n as [|c n IH]; simpl; [done|]. by rewrite IH. Qed.

Lemma prefix_app_string (n r : string) : String.prefix n (n +:+ r) = true.
Proof.
  induction n as [|c n IH]; simpl; [by destruct r|].
  destruct (ascii_dec c c); [exact IH|done].
Qed.

Lemma prefix_split (n s : string) :
  String.prefix n s = true → ∃ r, s = n +:+ r.
Proof.
  revert s. induction n as [|c n IH]; intros s.
  - intros _. by exists s.
  - destruct s as [|d s]; simpl; [done|]. destruct (ascii_dec c d) as [->|]; [|done].
    intros [r ->]%IH. by exists r.
Qed.

Lemma prefix_drop (n s : string) :
  String.prefix n s = true →
  s = n +:+ String.substring (String.length n) (String.length s) s.
Proof.
  intros [r ->]%prefix_split. rewrite substring_app_length; [done|].
  rewrite length_app_string. lia.
Qed.

Lemma after_first_sound (needle s rest : string) :
  after_first needle s = Some rest → ∃ p, s = p +:+ needle +:+ rest.
Proof.
  induction s as [|c s IH]; cbn [after_first].
  - destruct (String.prefix needle "") eqn:Hp; [|done].
    intros [= <-]. exists "". by apply prefix_drop.
  - destruct (String.prefix needle (String c s)) eqn:Hp.
    + intros [= <-]. exists "". by apply prefix_drop.
    + intros [p ->]%IH. by exists (String c p).
Qed.

Lemma after_first_here (needle r : string) :
  after_first needle (needle +:+ r) = Some r.
Proof.
  assert (String.substring (String.length needle) (String.length (needle +:+ r))
            (needle +:+ r) = r) as Hsub.
  { apply substring_app_length. rewrite length_app_string. lia. }
  pose proof (prefix_app_string needle r) as Hp.
  destruct (needle +:+ r) as [|c s]; cbn [after_first]; by rewrite Hp, Hsub.
Qed.

Lemma after_first_complete (needle p r : string) :
  is_Some (after_first needle (p +:+ needle +:+ r)).
Proof.
  induction p as [|c p IH].
  - change (is_Some (after_first needle (needle +:+ r))).
    rewrite after_first_here. by eexists.
  - change (String c p +:+ needle +:+ r) with (String c (p +:+ needle +:+ r)).
    cbn [after_first]. by destruct (String.prefix needle _).
Qed.

Lemma up_to_slash_split (s : string) :
  ∃ rest, s = up_to_slash s +:+ rest ∧ (rest = "" ∨ ∃ rest', rest = String "/" rest').
Proof.
  induction s as [|c s (rest & Hs & Hrest)]; cbn [up_to_slash].
  - exists "". split; [done|by left].
  - destruct (decide (c = "/"%char)) as [->|Hc].
    + exists (String "/" s). split; [done|]. right. by eexists.
    + exists rest. split; [|done].
      change (String c s = String c (up_to_slash s +:+ rest)). by f_equal.
Qed.

Lemma up_to_slash_idemp (s : string) : up_to_slash (up_to_slash s) = up_to_slash s.
Proof.
  induction s as [|c s IH]; cbn [up_to_slash]; [done|].
  destruct (decide (c = "/"%char)) as [->|Hc]; [done|].
  cbn [up_to_slash]. rewrite decide_False by done. by rewrite IH.
Qed.

Lemma up_to_slash_app (g tail : string) :
  up_to_slash g = g → up_to_slash tail = "" → up_to_slash (g +:+ tail) = g.
Proof.
  intros Hg Htail. induction g as [|c g IH]; [done|].
  simpl in *. destruct (decide (c = "/"%char)); [done|].
  f_equal. apply IH. by injection Hg.
Qed.

(** What [FindStringSubmatch] captures is in the ID: if it matches, the
    match is [/resourceGroups/] and a group without a slash, the ID reads
    something, [/resourceGroups/], the group, and then ends or goes on with a
    slash; and it matches every ID that has [/resourceGroups/] in it. A
    match has two elements, so that the index 1 the collector reads is there
    whenever the length is at least 1. *)
Theorem FindStringSubmatch_captures (s : string) :
  (FindStringSubmatch s = []
   ∨ ∃ g p rest,
       FindStringSubmatch s = ["/resourceGroups/" +:+ g; g]
       ∧ s = p +:+ "/resourceGroups/" +:+ g +:+ rest
       ∧ up_to_slash g = g
       ∧ (rest = "" ∨ ∃ rest', rest = String "/" rest'))
  ∧ (∀ p r, s = p +:+ "/resourceGroups/" +:+ r → FindStringSubmatch s ≠ [])
  ∧ (1 ≤ length (FindStringSubmatch s) → is_Some (FindStringSubmatch s !! 1)).
Proof.
  unfold FindStringSubmatch. split; [|split].
  - destruct (after_first "/resourceGroups/" s) as [after|] eqn:Hafter; [|by left].
    right. apply after_first_sound in Hafter as [p ->].
    destruct (up_to_slash_split after) as (rest & Hsplit & Hrest).
    exists (up_to_slash after), p, rest. split; [done|]. split; [by rewrite <- Hsplit|].
    split; [apply up_to_slash_idemp|done].
  - intros p r ->. by destruct (after_first_complete "/resourceGroups/" p r) as [? ->].
  - destruct (after_first "/resourceGroups/" s); cbn [length]; [by eexists|lia].
Qed.

Lemma no_slash_cons (c : ascii) (s : string) :
  up_to_slash (String c s) = String c s → c ≠ "/"%char ∧ up_to_slash s = s.
Proof.
  cbn [up_to_slash]. destruct (decide (c = "/"%char)); [done|].
  intros [= Hs]. done.
Qed.

Lemma prefix_cons (a b : ascii) (s1 s2 : string) :
  String.prefix (String a s1) (String b s2)
  = if ascii_dec a b then String.prefix s1 s2 else false.
Proof. done. Qed.

Lemma append_cons (c : ascii) (s t : string) : String c s +:+ t = String c (s +:+ t).
Proof. done. Qed.

Lemma prefix_word_slash (word sub rest : string) :
  up_to_slash word = word → up_to_slash sub = sub →
  String.prefix (word +:+ "/") (sub +:+ String "/" rest) = true → sub = word.
Proof.
  revert sub. induction word as [|a word IH]; intros sub Hword Hsub.
  - destruct sub as [|b sub]; [done|].
    apply no_slash_cons in Hsub as [Hb _].
    change ("" +:+ "/") with (String "/" ""). rewrite append_cons, prefix_cons.
    by destruct (ascii_dec "/" b) as [<-|].
  - apply no_slash_cons in Hword as [Ha Hword]. rewrite append_cons.
    destruct sub as [|b sub].
    + change ("" +:+ String "/" rest) with (String "/" rest). rewrite prefix_cons.
      by destruct (ascii_dec a "/").
    + apply no_slash_cons in Hsub as [_ Hsub]. rewrite append_cons, prefix_cons.
      destruct (ascii_dec a b) as [->|]; [|done].
      intros Hp. f_equal. by apply IH.
Qed.

Lemma after_first_skip (needle : string) (c : ascii) (s : string) :
  String.prefix needle (String c s) = false →
  after_first needle (String c s) = after_first needle s.
Proof. intros Hp. cbn [after_first]. by rewrite Hp. Qed.

Lemma after_first_past_word (needle sub rest : string) :
  up_to_slash sub = sub →
  after_first (String "/" needle) (sub +:+ String "/" needle +:+ rest) = Some rest.
Proof.
  induction sub as [|b sub IH]; intros Hsub.
  - apply (after_first_here (String "/" needle)).
  - apply no_slash_cons in Hsub as [Hb Hsub].
    rewrite append_cons, after_first_skip; [by apply IH|].
    rewrite prefix_cons. by destruct (ascii_dec "/" b) as [<-|].
Qed.

Lemma prefix_other_letter (needle s : string) (a b : ascii) :
  a ≠ b → String.prefix (String a needle) (String b s) = false.
Proof. intros Hab. rewrite prefix_cons. by destruct (ascii_dec a b). Qed.

(** For the ID of a resource, [/subscriptions/], the subscription,
    [/resourceGroups/], the resource group, and then the end or a slash and
    more, [FindStringSubmatch] captures the resource group. The subscription
    and the group hold no slash, and the subscription is not the word
    resourceGroups, which would make a match of its own. *)
Theorem FindStringSubmatch_of_resource_id (subscription group tail : string) :
  up_to_slash subscription = subscription →
  subscription ≠ "resourceGroups" →
  up_to_slash group = group →
  up_to_slash tail = "" →
  FindStringSubmatch
    ("/subscriptions/" +:+ subscription +:+ "/resourceGroups/" +:+ group +:+ tail)
  = ["/resourceGroups/" +:+ group; group].
Proof.
  intros Hsub Hne Hgroup Htail. unfold FindStringSubmatch.
  assert (after_first "/resourceGroups/"
            ("/subscriptions/" +:+ subscription +:+ "/resourceGroups/" +:+ group +:+ tail)
          = Some (group +:+ tail)) as ->.
  { change ("/subscriptions/" +:+ subscription +:+ "/resourceGroups/" +:+ group +:+ tail)
      with (String "/" ("subscriptions" +:+
            String "/" (subscription +:+ "/resourceGroups/" +:+ group +:+ tail))).
    rewrite after_first_skip.
    2:{ rewrite prefix_cons. destruct (ascii_dec "/" "/"); [|done].
        change ("subscriptions" +:+ ?x) with (String "s" ("ubscriptions" +:+ x)).
        by apply prefix_other_letter. }
    repeat (rewrite append_cons, after_first_skip; [|by apply prefix_other_letter]).
    change ("" +:+ ?x) with x.
    rewrite after_first_skip.
    - by apply (after_first_past_word "resourceGroups/").
    - rewrite prefix_cons. destruct (ascii_dec "/" "/"); [|done].
      destruct (String.prefix "resourceGroups/" _) eqn:Hp; [|done].
      exfalso. apply Hne.
      by apply (prefix_word_slash "resourceGroups" subscription
                  ("resourceGroups/" +:+ group +:+ tail)). }
  by rewrite up_to_slash_app.
Qed.

(** The ID of the public IP address of the scenario. *)
Lemma FindStringSubmatch_of_resource_id_witness :
  FindStringSubmatch
    ("/subscriptions/" +:+ "S" +:+ "/resourceGroups/" +:+ "edge" +:+
     "/providers/Microsoft.Network/publicIPAddresses/10.0.0.1")
  = ["/resourceGroups/" +:+ "edge"; "edge"].
Proof.
  apply (FindStringSubmatch_of_resource_id "S" "edge"
           "/providers/Microsoft.Network/publicIPAddresses/10.0.0.1").
  - reflexivity.
  - discriminate.
  - reflexivity.
  - reflexivity.
Defined.

(** ** When the cycle returns, and what *)

Section yields_facts.
Context {S : Type}.

Lemma yields_ret {A} (a : A) : yields (mret a : Go S A) (Some a).
Proof. by intros s. Qed.

Lemma yields_panic {A} err : yields (panic err : Go S A) None.
Proof. by intros s. Qed.

Lemma yields_deref {A} (p : option A) : yields (deref p : Go S A) p.
Proof. destruct p; [apply yields_ret|apply yields_panic]. Qed.

Lemma yields_modify (f : S → S) : yields (modify f) (Some ()).
Proof. by intros s. Qed.

Lemma yields_bind {A B} (m : Go S A) (k : A → Go S B) (o : option A) (o' : option B) :
  yields m o →
  (∀ a, o = Some a → yields (k a) o') →
  (o = None → o' = None) →
  yields (m ≫= k) o'.
Proof.
  intros Hm Hk Hnone s. specialize (Hm s). unfold mbind, Go_bind.
  destruct (m s) as [a s'|err s']; cbn [returned] in Hm.
  - by apply (Hk a).
  - symmetry. by apply Hnone.
Qed.

Lemma yields_bind_some {A B} (m : Go S A) (k : A → Go S B) (a : A) (o' : option B) :
  yields m (Some a) → yields (k a) o' → yields (m ≫= k) o'.
Proof.
  intros Hm Hk. apply (yields_bind m k (Some a) o' Hm); [|done].
  by intros a' [= <-].
Qed.

Lemma yields_bind_none {A B} (m : Go S A) (k : A → Go S B) :
  yields m None → yields (m ≫= k) None.
Proof. intros Hm. by apply (yields_bind m k None None Hm). Qed.

Lemma yields_bind_if {A B} (m : Go S A) (k : A → Go S B) (b b' : bool) (a : A) (a' : B) :
  yields m (if b then Some a else None) →
  (b = true → yields (k a) (if b' then Some a' else None)) →
  yields (m ≫= k) (if b && b' then Some a' else None).
Proof.
  intros Hm Hk. destruct b; cbn [andb].
  - apply (yields_bind_some m k a); [done|by apply Hk].
  - by apply yields_bind_none.
Qed.

Lemma yields_for_each {A} (c : A → bool) (l : list A) (body : A → Go S unit) :
  (∀ x, yields (body x) (if c x then Some () else None)) →
  yields (for_each l body) (if forallb c l then Some () else None).
Proof.
  intros Hbody. induction l as [|x l IH]; cbn [for_each forallb].
  - apply yields_ret.
  - apply (yields_bind_if (body x) _ (c x) (forallb c l) () ()); [apply Hbody|].
    intros _. exact IH.
Qed.

Lemma yields_fold_each {A B} (c : A → bool) (f : B → A → B) (l : list A) (b : B)
    (body : B → A → Go S B) :
  (∀ b x, yields (body b x) (if c x then Some (f b x) else None)) →
  yields (fold_each l b body) (if forallb c l then Some (foldl f b l) else None).
Proof.
  intros Hbody. revert b. induction l as [|x l IH]; intros b; cbn [fold_each forallb foldl].
  - apply yields_ret.
  - apply (yields_bind_if (body b x) _ (c x) (forallb c l) (f b x)); [apply Hbody|].
    intros _. apply IH.
Qed.

End yields_facts.

Section raises_facts.
Context {S : Type} (E : string → Prop).

Lemma raises_ret {A} (a : A) : raises (mret a : Go S A) E.
Proof. by intros s. Qed.

Lemma raises_panic {A} err : E err → raises (panic err : Go S A) E.
Proof. by intros He s. Qed.

Lemma raises_deref {A} (p : option A) : E nil_dereference → raises (deref p : Go S A) E.
Proof. intros He. destruct p; [apply raises_ret|by apply raises_panic]. Qed.

Lemma raises_modify (f : S → S) : raises (modify f) E.
Proof. by intros s. Qed.

Lemma raises_bind {A B} (m : Go S A) (k : A → Go S B) :
  raises m E → (∀ a, raises (k a) E) → raises (m ≫= k) E.
Proof.
  intros Hm Hk s. specialize (Hm s). unfold mbind, Go_bind.
  destruct (m s) as [a s'|err s']; [apply Hk|done].
Qed.

Lemma raises_fold_each {A B} (l : list A) (b : B) (body : B → A → Go S B) :
  (∀ b x, raises (body b x) E) → raises (fold_each l b body) E.
Proof.
  intros Hbody. revert b. induction l as [|x l IH]; intros b; cbn [fold_each].
  - apply raises_ret.
  - apply raises_bind; [apply Hbody|]. intros b'. apply IH.
Qed.

End raises_facts.

Lemma foldl_allocated (values : list (option PublicIPAddress)) (acc : list string) :
  foldl (λ acc val, match val ≫= IPAddress with
                    | Some ip => acc ++ [ip]
                    | None => acc
                    end) acc values
  = acc ++ omap (λ val, val ≫= IPAddress) values.
Proof.
  revert acc. induction values as [|val values IH]; intros acc; cbn [foldl omap list_omap].
  - by rewrite app_nil_r.
  - rewrite IH. destruct (val ≫= IPAddress); [by rewrite <- app_assoc|done].
Qed.

Lemma foldl_snoc_fmap {A B} (f : A → B) (l : list A) (acc : list B) :
  foldl (λ acc x, acc ++ [f x]) acc l = acc ++ (f <$> l).
Proof.
  revert acc. induction l as [|x l IH]; intros acc; cbn [foldl fmap list_fmap].
  - by rewrite app_nil_r.
  - by rewrite IH, <- app_assoc.
Qed.

Lemma foldl_app_concat {A B} (f : A → list B) (l : list A) (acc : list B) :
  foldl (λ acc x, acc ++ f x) acc l = acc ++ concat (f <$> l).
Proof.
  revert acc. induction l as [|x l IH]; intros acc; cbn [foldl fmap list_fmap concat].
  - by rewrite app_nil_r.
  - by rewrite IH, app_assoc.
Qed.

Section cycle_returns.
Context (opts : Opts) (AZURE_RESOURCEGROUP_TAG_PREFIX : string)
  (ParseFloat : string → option float64) (api : AzureApi) (sched : Schedule).

Lemma yields_With_Set g labels v : yields (With_Set g labels v) (Some ()).
Proof. apply yields_modify. Qed.

Lemma yields_With g labels : yields (With g labels) (Some ()).
Proof. apply yields_modify. Qed.

Lemma probeProcessHeader_yields response header labels :
  yields (probeProcessHeader ParseFloat response header labels) (Some ()).
Proof.
  unfold probeProcessHeader. cbv zeta.
  destruct (decide _); [|apply yields_ret].
  destruct (ParseFloat _); apply yields_modify.
Qed.

Lemma collectAzureSubscription_yields subscriptionId :
  yields (collectAzureSubscription ParseFloat api subscriptionId)
    (if match subscriptions_Get api subscriptionId with
        | Ok sub => subscription_complete sub
        | Err _ => false
        end then Some () else None).
Proof.
  unfold collectAzureSubscription.
  destruct (subscriptions_Get api subscriptionId) as [sub|err]; [|apply yields_panic].
  destruct sub as [id name policies header]. unfold subscription_complete.
  cbn [SubscriptionID DisplayName Policies Header].
  destruct id as [id|]; [|by apply yields_bind_none, yields_deref].
  eapply yields_bind_some; [apply yields_deref|].
  destruct name as [name|]; [|by apply yields_bind_none, yields_deref].
  eapply yields_bind_some; [apply yields_deref|].
  destruct policies as [[limit quotaID placement]|];
    [|by apply yields_bind_none, yields_deref].
  eapply yields_bind_some; [apply yields_deref|].
  cbn [QuotaID LocationPlacementID SpendingLimit].
  destruct quotaID as [quotaID|]; [|by apply yields_bind_none, yields_deref].
  eapply yields_bind_some; [apply yields_deref|].
  destruct placement as [placement|]; [|by apply yields_bind_none, yields_deref].
  eapply yields_bind_some; [apply yields_deref|].
  eapply yields_bind_some; [apply yields_With_Set|].
  repeat (eapply yields_bind_some; [apply probeProcessHeader_yields|]).
  apply probeProcessHeader_yields.
Qed.

Lemma collectAzureResourceGroup_yields subscriptionId :
  yields (collectAzureResourceGroup opts AZURE_RESOURCEGROUP_TAG_PREFIX api subscriptionId)
    (if match groups_ListComplete api subscriptionId with
        | Ok (Some items) => forallb (group_complete (AzureResourceGroupTags opts)) items
        | _ => false
        end then Some () else None).
Proof.
  unfold collectAzureResourceGroup.
  destruct (groups_ListComplete api subscriptionId) as [[items|]|err];
    [|by apply yields_bind_none, yields_deref|apply yields_panic].
  eapply yields_bind_some; [apply yields_deref|].
  apply yields_for_each. intros [name location tags]. unfold group_complete.
  cbn [GroupName GroupLocation Tags].
  destruct name as [name|]; [|by apply yields_bind_none, yields_deref].
  eapply yields_bind_some; [apply yields_deref|].
  destruct location as [location|]; [|by apply yields_bind_none, yields_deref].
  eapply yields_bind_some; [apply yields_deref|].
  eapply (yields_bind _ _ (if forallb _ (AzureResourceGroupTags opts) then Some _ else None)).
  - apply (yields_fold_each
             (λ rgTag, match tags !! rgTag with Some None => false | _ => true end)
             (λ (rgLabels : Labels) rgTag,
                <[AZURE_RESOURCEGROUP_TAG_PREFIX +:+ rgTag :=
                    match tags !! rgTag with Some (Some v) => v | _ => "" end]> rgLabels)).
    intros rgLabels rgTag. destruct (tags !! rgTag) as [[v|]|].
    + eapply yields_bind_some; [apply yields_deref|]. apply yields_ret.
    + by apply yields_bind_none, yields_deref.
    + apply yields_ret.
  - intros rgLabels Hsome. destruct (forallb _ _); [|done]. apply yields_With_Set.
  - by destruct (forallb _ _).
Qed.

Lemma collectAzurePublicIp_yields subscriptionId :
  yields (collectAzurePublicIp api subscriptionId)
    (match publicIPAddresses_ListAll api subscriptionId with
     | Ok list =>
       if forallb address_complete list
       then Some (omap (λ val, val ≫= IPAddress) list) else None
     | Err _ => None
     end).
Proof.
  unfold collectAzurePublicIp.
  destruct (publicIPAddresses_ListAll api subscriptionId) as [list|err];
    [|apply yields_panic].
  rewrite <- (app_nil_l (omap _ list)), <- foldl_allocated.
  apply (yields_fold_each address_complete). intros ipAddressList val.
  unfold address_complete.
  destruct val as [[ip id location method version]|];
    [|by apply yields_bind_none, yields_deref].
  eapply yields_bind_some; [apply yields_deref|].
  change (Some ?v ≫= IPAddress) with (IPAddress v).
  cbn [IPAddress ID Location PublicIPAllocationMethod PublicIPAddressVersion].
  assert (∀ (ipAddress : string) (gaugeValue : float64) (l : Datatypes.list string),
    yields
      (id0 ← deref id;
       let rgSubMatch := FindStringSubmatch id0 in
       resourceGroup ←
         (if decide (1 ≤ length rgSubMatch) then
            match rgSubMatch !! 1 with
            | Some g => mret g
            | None => panic index_out_of_range
            end
          else mret "");
       location0 ← deref location;
       With_Set prometheusPublicIp
         {[ "subscriptionID" := subscriptionId;
            "resourceGroup" := resourceGroup;
            "location" := location0;
            "ipAddress" := ipAddress;
            "ipAllocationMethod" := method;
            "ipAdressVersion" := version ]} gaugeValue ;;
       mret l)
      (if match id, location with Some _, Some _ => true | _, _ => false end
       then Some l else None)) as Hbody.
  { intros ipAddress gaugeValue l.
    destruct id as [id|]; [|by apply yields_bind_none, yields_deref].
    eapply yields_bind_some; [apply yields_deref|]. cbv zeta.
    eapply (yields_bind_some _ _ (default "" (FindStringSubmatch id !! 1))).
    { unfold FindStringSubmatch. destruct (after_first "/resourceGroups/" id).
      - destruct (decide _) as [_|Hn]; [apply yields_ret|].
        exfalso. apply Hn. cbn [length]. lia.
      - destruct (decide _) as [Hn|_]; [|apply yields_ret].
        exfalso. cbn [length] in Hn. lia. }
    destruct location as [location|]; [|by apply yields_bind_none, yields_deref].
    eapply yields_bind_some; [apply yields_deref|].
    eapply yields_bind_some; [apply yields_With_Set|]. apply yields_ret. }
  destruct ip as [ip|]; apply Hbody.
Qed.

Lemma collectAzurePublicIp_raises subscriptionId list :
  publicIPAddresses_ListAll api subscriptionId = Ok list →
  raises (collectAzurePublicIp api subscriptionId) (λ err, err = nil_dereference).
Proof.
  intros Hlist. unfold collectAzurePublicIp. rewrite Hlist.
  apply raises_fold_each. intros ipAddressList listed.
  apply raises_bind; [by apply raises_deref|]. intros val.
  destruct (IPAddress val) as [ip|].
  all: apply raises_bind; [by apply raises_deref|]; intros id; cbv zeta.
  all: apply raises_bind; [|intros resourceGroup].
  all: try (apply raises_bind; [by apply raises_deref|]; intros location;
            apply raises_bind; [apply raises_modify|]; intros _; apply raises_ret).
  all: unfold FindStringSubmatch; destruct (after_first "/resourceGroups/" id).
  all: destruct (decide _) as [Hn|Hn]; try apply raises_ret.
  all: exfalso; cbn [length] in Hn; lia.
Qed.

Lemma setQuota_yields subscriptionId location scope val :
  yields (setQuota subscriptionId location scope val)
    (if usage_complete val then Some () else None).
Proof.
  unfold setQuota, usage_complete. destruct val as [name current limit].
  cbn [Name CurrentValue Limit].
  destruct name as [[quota quotaName]|]; [|by apply yields_bind_none, yields_deref].
  eapply yields_bind_some; [apply yields_deref|]. cbn [NameValue LocalizedValue].
  destruct quota as [quota|].
  2:{ destruct current, limit; by apply yields_bind_none, yields_deref. }
  eapply yields_bind_some; [apply yields_deref|]. cbv zeta.
  destruct quotaName as [quotaName|].
  2:{ destruct current, limit; by apply yields_bind_none, yields_deref. }
  eapply yields_bind_some; [apply yields_deref|].
  eapply yields_bind_some; [apply yields_With_Set|].
  eapply yields_bind_some; [apply yields_With|].
  destruct current as [current|].
  2:{ destruct limit; by apply yields_bind_none, yields_deref. }
  eapply yields_bind_some; [apply yields_deref|].
  eapply yields_bind_some; [apply yields_With_Set|].
  eapply yields_bind_some; [apply yields_With|].
  destruct limit as [limit|]; [|by apply yields_bind_none, yields_deref].
  eapply yields_bind_some; [apply yields_deref|]. apply yields_With_Set.
Qed.

Lemma collectAzureComputeUsage_yields subscriptionId :
  yields (collectAzureComputeUsage opts api subscriptionId)
    (if forallb (λ location,
                   match compute_usage_List api subscriptionId location with
                   | Ok list => forallb usage_complete list
                   | Err _ => false
                   end) (AzureLocation opts)
     then Some () else None).
Proof.
  unfold collectAzureComputeUsage. apply yields_for_each. intros location.
  destruct (compute_usage_List api subscriptionId location) as [list|err];
    [|apply yields_panic].
  apply yields_for_each. intros val. apply setQuota_yields.
Qed.

Lemma collectAzureStorageUsage_yields subscriptionId :
  yields (collectAzureStorageUsage opts api subscriptionId)
    (if forallb (λ _,
                   match storage_usage_List api subscriptionId with
                   | Ok (Some values) => forallb usage_complete values
                   | _ => false
                   end) (AzureLocation opts)
     then Some () else None).
Proof.
  unfold collectAzureStorageUsage. apply yields_for_each. intros location.
  destruct (storage_usage_List api subscriptionId) as [[values|]|err];
    [|by apply yields_bind_none, yields_deref|apply yields_panic].
  eapply yields_bind_some; [apply yields_deref|].
  apply yields_for_each. intros val. apply setQuota_yields.
Qed.

Lemma collectSubscription_yields subscription :
  yields (collectSubscription opts AZURE_RESOURCEGROUP_TAG_PREFIX ParseFloat api
            subscription)
    (if answers_complete opts api subscription
     then Some (allocated api subscription) else None).
Proof.
  unfold collectSubscription, answers_complete, allocated.
  destruct (SubscriptionID subscription) as [subscriptionId|];
    [|by apply yields_bind_none, yields_deref].
  eapply yields_bind_some; [apply yields_deref|].
  pose proof (collectAzurePublicIp_yields subscriptionId) as Hip.
  destruct (publicIPAddresses_ListAll api subscriptionId) as [list|err].
  - rewrite <- !andb_assoc.
    eapply yields_bind_if; [apply collectAzureSubscription_yields|]. intros _.
    eapply yields_bind_if; [apply collectAzureResourceGroup_yields|]. intros _.
    eapply yields_bind_if; [exact Hip|]. intros _.
    eapply yields_bind_if; [apply collectAzureComputeUsage_yields|]. intros _.
    rewrite <- (andb_true_r (forallb _ (AzureLocation opts))).
    eapply yields_bind_if; [apply collectAzureStorageUsage_yields|]. intros _.
    apply yields_ret.
  - rewrite andb_false_r. cbn [andb].
    eapply (yields_bind _ _ _ None); [apply collectAzureSubscription_yields|intros _ _|done].
    eapply (yields_bind _ _ _ None); [apply collectAzureResourceGroup_yields|intros _ _|done].
    by apply yields_bind_none.
Qed.

Lemma runMetricsCollectionAzureRm_yields AzureSubscriptions :
  yields (runMetricsCollectionAzureRm opts AZURE_RESOURCEGROUP_TAG_PREFIX ParseFloat api sched
            AzureSubscriptions)
    (if forallb (answers_complete opts api) AzureSubscriptions
     then Some (concat (arrival sched (allocated api <$> AzureSubscriptions))) else None).
Proof.
  unfold runMetricsCollectionAzureRm.
  eapply yields_bind_some; [apply yields_modify|].
  eapply yields_bind_some; [apply yields_modify|].
  rewrite <- (andb_true_r (forallb _ _)).
  eapply yields_bind_if; [|intros _; apply yields_ret].
  rewrite <- (app_nil_l (allocated api <$> AzureSubscriptions)), <- foldl_snoc_fmap.
  apply (yields_fold_each (answers_complete opts api)
           (λ sent subscription, sent ++ [allocated api subscription])).
  intros sent subscription.
  rewrite <- (andb_true_r (answers_complete opts api subscription)).
  eapply yields_bind_if; [apply collectSubscription_yields|]. intros _.
  apply yields_ret.
Qed.

(** The address collector returns exactly when every address the provider
    lists has its properties, its ID and its location, whatever the
    registry holds; it then returns the addresses that are allocated, in the
    order listed, an address that is not allocated counting for a gauge and
    not for the list. It panics on a nil pointer only: the index 1 of the
    match of the ID is never out of range. *)
Theorem collectAzurePublicIp_returns_allocated subscriptionId list r :
  publicIPAddresses_ListAll api subscriptionId = Ok list →
  match collectAzurePublicIp api subscriptionId r with
  | Done ipAddressList _ =>
    forallb address_complete list = true
    ∧ ipAddressList = omap (λ val, val ≫= IPAddress) list
  | Panicked err _ =>
    forallb address_complete list = false ∧ err = nil_dereference
  end.
Proof.
  intros Hlist. pose proof (collectAzurePublicIp_yields subscriptionId r) as Hy.
  rewrite Hlist in Hy.
  destruct (collectAzurePublicIp api subscriptionId r) as [l r'|err r'] eqn:Hrun;
    cbn [returned] in Hy.
  - destruct (forallb address_complete list); [|done]. by injection Hy as ->.
  - split; [by destruct (forallb address_complete list)|].
    pose proof (collectAzurePublicIp_raises subscriptionId list Hlist r) as Hr.
    by rewrite Hrun in Hr.
Qed.

(** The cycle returns exactly when every call of every collector answers
    for every subscription, with every pointer the collectors dereference;
    the list gathered from the channel is then the allocated addresses of
    the subscriptions, the list of one subscription after that of another
    in the order in which they arrive: a permutation of the addresses
    listed. Otherwise the cycle panics. Neither depends on what the registry
    holds. *)
Theorem runMetricsCollectionAzureRm_returns_iff_complete AzureSubscriptions r :
  match runMetricsCollectionAzureRm opts AZURE_RESOURCEGROUP_TAG_PREFIX ParseFloat api sched
          AzureSubscriptions r with
  | Done publicIpList _ =>
    forallb (answers_complete opts api) AzureSubscriptions = true
    ∧ publicIpList = concat (arrival sched (allocated api <$> AzureSubscriptions))
    ∧ publicIpList ≡ₚ concat (allocated api <$> AzureSubscriptions)
  | Panicked _ _ =>
    forallb (answers_complete opts api) AzureSubscriptions = false
  end.
Proof.
  pose proof (runMetricsCollectionAzureRm_yields AzureSubscriptions r) as Hy.
  destruct (runMetricsCollectionAzureRm _ _ _ _ _ _ r) as [l r'|err r'];
    cbn [returned] in Hy.
  - destruct (forallb _ _); [|done]. injection Hy as ->.
    split; [done|]. split; [done|]. apply concat_perm, arrival_perm.
  - by destruct (forallb _ _).
Qed.

End cycle_returns.

(** The address of the scenario, listed for the subscription S. *)
Lemma collectAzurePublicIp_returns_allocated_witness :
  match collectAzurePublicIp Scenario.api "S" Scenario.empty_registry with
  | Done ipAddressList _ =>
    forallb address_complete [Some (Scenario.address "10.0.0.1")] = true
    ∧ ipAddressList
      = omap (λ val, val ≫= IPAddress) [Some (Scenario.address "10.0.0.1")]
  | Panicked err _ =>
    forallb address_complete [Some (Scenario.address "10.0.0.1")] = false
    ∧ err = nil_dereference
  end.
Proof.
  exact (collectAzurePublicIp_returns_allocated Scenario.api "S"
           [Some (Scenario.address "10.0.0.1")] Scenario.empty_registry eq_refl).
Defined.

(** An address that comes without its properties: the collector panics on
    the first read of it, with no sample set. *)
Lemma address_without_properties_panics :
  publicIPAddresses_ListAll Scenario.api_no_properties "S" = Ok [None]
  ∧ collectAzurePublicIp Scenario.api_no_properties "S" Scenario.empty_registry
    = Panicked nil_dereference Scenario.empty_registry.
Proof. split; reflexivity. Qed.

(** Two subscriptions whose lists arrive last sent first. *)
Lemma lists_gathered_as_they_arrive :
  match runMetricsCollectionAzureRm Scenario.opts "tag_" Scenario.ParseFloat
          Scenario.api_two Scenario.last_first
          [Scenario.subscription; Scenario.subscription_T] Scenario.empty_registry with
  | Done publicIpList _ => publicIpList = ["10.0.0.2"; "10.0.0.1"]
  | Panicked _ _ => False
  end.
Proof. vm_compute. reflexivity. Qed.

(** A quota without its current value: the sample of the current value is
    there, at 0, when the collector panics on the nil pointer. *)
Lemma quota_sample_made_before_panic :
  match collectAzureComputeUsage Scenario.opts Scenario.api_no_current "S"
          Scenario.empty_registry with
  | Done _ _ => False
  | Panicked err r =>
    err = nil_dereference
    ∧ vec r prometheusQuotaCurrent !! Scenario.cores_labels = Some Float64.zero
    ∧ vec r prometheusQuotaLimit !! Scenario.cores_labels = None
  end.
Proof. vm_compute. split; [reflexivity|]. split; reflexivity. Qed.

(** ** The labels the collectors set *)

Section preserves_facts.
Context {S : Type} (I : S → Prop).

Lemma preserves_ret {A} (φ : A → Prop) (a : A) : φ a → preserves I (mret a : Go S A) φ.
Proof. by intros Ha s Hs. Qed.

Lemma preserves_panic {A} (φ : A → Prop) err : preserves I (panic err : Go S A) φ.
Proof. by intros s Hs. Qed.

Lemma preserves_deref {A} (p : option A) :
  preserves I (deref p : Go S A) (λ a, p = Some a).
Proof. destruct p; [by apply preserves_ret|apply preserves_panic]. Qed.

Lemma preserves_modify (f : S → S) :
  (∀ s, I s → I (f s)) → preserves I (modify f) (λ _, True).
Proof. intros Hf s Hs. split; [by apply Hf|done]. Qed.

Lemma preserves_bind {A B} (m : Go S A) (k : A → Go S B) (φ : A → Prop) (ψ : B → Prop) :
  preserves I m φ → (∀ a, φ a → preserves I (k a) ψ) → preserves I (m ≫= k) ψ.
Proof.
  intros Hm Hk s Hs. specialize (Hm s Hs). unfold mbind, Go_bind.
  destruct (m s) as [a s'|err s']; [|done].
  destruct Hm as [Hs' Ha]. by apply Hk.
Qed.

Lemma preserves_for_each {A} (l : list A) (body : A → Go S unit) :
  (∀ x, preserves I (body x) (λ _, True)) →
  preserves I (for_each l body) (λ _, True).
Proof.
  intros Hbody. induction l as [|x l IH]; cbn [for_each].
  - by apply preserves_ret.
  - eapply preserves_bind; [apply Hbody|]. intros _ _. exact IH.
Qed.

Lemma preserves_fold_each {A B} (J : list A → B → Prop) (l : list A) (b : B)
    (body : B → A → Go S B) :
  J [] b →
  (∀ seen b x, J seen b → preserves I (body b x) (J (seen ++ [x]))) →
  preserves I (fold_each l b body) (J l).
Proof.
  intros Hb Hbody.
  cut (∀ seen b, J seen b → preserves I (fold_each l b body) (J (seen ++ l))).
  { intros Hcut. by apply (Hcut [] b). }
  clear b Hb. induction l as [|x l IH]; intros seen b Hb; cbn [fold_each].
  - rewrite app_nil_r. by apply preserves_ret.
  - eapply preserves_bind; [by apply Hbody|]. intros b' Hb'.
    rewrite (cons_middle x seen l), app_assoc. by apply IH.
Qed.

End preserves_facts.

Section declared_labels.
Context (opts : Opts) (AZURE_RESOURCEGROUP_TAG_PREFIX : string)
  (ParseFloat : string → option float64) (api : AzureApi) (sched : Schedule)
  (prefixSlice : string → list string → list string).
Hypothesis prefixSlice_prefixes : ∀ prefix l, prefixSlice prefix l = prefix_each prefix l.

#[local] Abbreviation declared := (initMetricsAzureRm prefixSlice opts AZURE_RESOURCEGROUP_TAG_PREFIX).

Lemma preserves_With_Set g labels v :
  dom labels =@{gset string} list_to_set (declared g) →
  preserves (labelled_as declared) (With_Set g labels v) (λ _, True).
Proof.
  intros Hdom. apply preserves_modify. intros r Hr g' labels'.
  rewrite vec_update_vec. destruct (decide (g' = g)) as [->|Hne]; [|apply Hr].
  destruct (decide (labels' = labels)) as [->|Hne]; [done|].
  rewrite lookup_insert_ne by done. apply Hr.
Qed.

Lemma preserves_With g labels :
  dom labels =@{gset string} list_to_set (declared g) →
  preserves (labelled_as declared) (With g labels) (λ _, True).
Proof.
  intros Hdom. apply preserves_modify. intros r Hr g' labels'.
  rewrite vec_update_vec. destruct (decide (g' = g)) as [->|Hne]; [|apply Hr].
  destruct (vec r g !! labels) eqn:Hl; [apply Hr|].
  destruct (decide (labels' = labels)) as [->|Hne]; [done|].
  rewrite lookup_insert_ne by done. apply Hr.
Qed.

Lemma preserves_Reset g :
  preserves (labelled_as declared) (Reset g) (λ _, True).
Proof.
  apply preserves_modify. intros r Hr g' labels'.
  rewrite vec_update_vec. destruct (decide (g' = g)) as [->|Hne]; [|apply Hr].
  rewrite lookup_empty. by intros [? ?].
Qed.

Lemma preserves_ErrorLogger_Error msg :
  preserves (labelled_as declared) (ErrorLogger_Error msg) (λ _, True).
Proof.
  apply preserves_modify. intros r Hr g labels. specialize (Hr g labels).
  by destruct g.
Qed.

Lemma probeProcessHeader_labels response header subscriptionId scope type :
  preserves (labelled_as declared)
    (probeProcessHeader ParseFloat response header (ratelimit subscriptionId scope type))
    (λ _, True).
Proof.
  unfold probeProcessHeader. cbv zeta.
  destruct (decide _); [|by apply preserves_ret].
  destruct (ParseFloat _); [|apply preserves_ErrorLogger_Error].
  apply preserves_With_Set. unfold ratelimit, initMetricsAzureRm.
  rewrite !dom_insert_L, dom_singleton_L. cbn [list_to_set]. set_solver.
Qed.

Lemma collectAzureSubscription_labels subscriptionId :
  preserves (labelled_as declared) (collectAzureSubscription ParseFloat api subscriptionId)
    (λ _, True).
Proof.
  unfold collectAzureSubscription.
  destruct (subscriptions_Get api subscriptionId) as [sub|err]; [|apply preserves_panic].
  do 5 (eapply preserves_bind; [apply preserves_deref|]; intros ? _).
  eapply preserves_bind.
  { apply preserves_With_Set. unfold initMetricsAzureRm.
    rewrite !dom_insert_L, dom_singleton_L. cbn [list_to_set]. set_solver. }
  intros _ _.
  repeat (eapply preserves_bind; [apply probeProcessHeader_labels|]; intros _ _).
  apply probeProcessHeader_labels.
Qed.

Lemma collectAzureResourceGroup_labels subscriptionId :
  preserves (labelled_as declared)
    (collectAzureResourceGroup opts AZURE_RESOURCEGROUP_TAG_PREFIX api subscriptionId)
    (λ _, True).
Proof.
  unfold collectAzureResourceGroup.
  destruct (groups_ListComplete api subscriptionId) as [items|err]; [|apply preserves_panic].
  eapply preserves_bind; [apply preserves_deref|]. intros items' _.
  apply preserves_for_each. intros item.
  eapply preserves_bind; [apply preserves_deref|]. intros name _.
  eapply preserves_bind; [apply preserves_deref|]. intros location _.
  eapply preserves_bind.
  { apply (preserves_fold_each _
             (λ seen (rgLabels : Labels),
                dom rgLabels =@{gset string}
                list_to_set (["subscriptionID"; "resourceGroup"; "location"]
                             ++ prefix_each AZURE_RESOURCEGROUP_TAG_PREFIX seen))).
    - rewrite !dom_insert_L, dom_singleton_L. cbn [list_to_set app prefix_each fmap list_fmap].
      set_solver.
    - intros seen rgLabels rgTag Hdom. cbv zeta.
      assert (∀ v, dom (<[AZURE_RESOURCEGROUP_TAG_PREFIX +:+ rgTag := v]> rgLabels)
                   =@{gset string}
                   list_to_set (["subscriptionID"; "resourceGroup"; "location"]
                     ++ prefix_each AZURE_RESOURCEGROUP_TAG_PREFIX (seen ++ [rgTag])))
        as Hstep.
      { intros v. rewrite dom_insert_L, Hdom. unfold prefix_each.
        rewrite fmap_app, !list_to_set_app_L. cbn [fmap list_fmap list_to_set].
        apply set_eq. intros label. set_unfold. tauto. }
      destruct (Tags item !! rgTag) as [tag|]; [|by apply preserves_ret].
      eapply preserves_bind; [apply preserves_deref|]. intros v _.
      by apply preserves_ret. }
  intros rgLabels Hdom. apply preserves_With_Set.
  unfold initMetricsAzureRm. by rewrite prefixSlice_prefixes.
Qed.

Lemma collectAzurePublicIp_labels subscriptionId :
  preserves (labelled_as declared) (collectAzurePublicIp api subscriptionId) (λ _, True).
Proof.
  unfold collectAzurePublicIp.
  destruct (publicIPAddresses_ListAll api subscriptionId) as [values|err];
    [|apply preserves_panic].
  apply (preserves_fold_each _ (λ _ _, True)); [done|].
  intros _ ipAddressList listed _.
  eapply preserves_bind; [apply preserves_deref|]. intros val _.
  destruct (IPAddress val) as [ip|].
  all: eapply preserves_bind; [apply preserves_deref|]; intros id _; cbv zeta.
  all: eapply (preserves_bind _ _ _ (λ _, True));
    [destruct (decide _); [destruct (_ !! 1); [by apply preserves_ret|apply preserves_panic]
                          |by apply preserves_ret]|].
  all: intros resourceGroup _.
  all: eapply preserves_bind; [apply preserves_deref|]; intros location _.
  all: eapply preserves_bind; [|intros _ _; by apply preserves_ret].
  all: apply preserves_With_Set; unfold initMetricsAzureRm.
  all: rewrite !dom_insert_L, dom_singleton_L; cbn [list_to_set]; set_solver.
Qed.

Lemma setQuota_labels subscriptionId location scope val :
  preserves (labelled_as declared) (setQuota subscriptionId location scope val) (λ _, True).
Proof.
  unfold setQuota.
  do 2 (eapply preserves_bind; [apply preserves_deref|]; intros ? _). cbv zeta.
  eapply preserves_bind; [apply preserves_deref|]; intros quotaName _.
  eapply preserves_bind; [|intros _ _].
  { apply preserves_With_Set; unfold initMetricsAzureRm.
    rewrite !dom_insert_L, dom_singleton_L; cbn [list_to_set]; set_solver. }
  eapply preserves_bind; [|intros _ _].
  { apply preserves_With; unfold initMetricsAzureRm.
    rewrite !dom_insert_L, dom_singleton_L; cbn [list_to_set]; set_solver. }
  eapply preserves_bind; [apply preserves_deref|]; intros current _.
  eapply preserves_bind; [|intros _ _].
  { apply preserves_With_Set; unfold initMetricsAzureRm.
    rewrite !dom_insert_L, dom_singleton_L; cbn [list_to_set]; set_solver. }
  eapply preserves_bind; [|intros _ _].
  { apply preserves_With; unfold initMetricsAzureRm.
    rewrite !dom_insert_L, dom_singleton_L; cbn [list_to_set]; set_solver. }
  eapply preserves_bind; [apply preserves_deref|]; intros limit _.
  apply preserves_With_Set; unfold initMetricsAzureRm.
  rewrite !dom_insert_L, dom_singleton_L; cbn [list_to_set]; set_solver.
Qed.

Lemma collectAzureComputeUsage_labels subscriptionId :
  preserves (labelled_as declared) (collectAzureComputeUsage opts api subscriptionId)
    (λ _, True).
Proof.
  unfold collectAzureComputeUsage. apply preserves_for_each. intros location.
  destruct (compute_usage_List api subscriptionId location) as [values|err];
    [|apply preserves_panic].
  apply preserves_for_each. intros val. apply setQuota_labels.
Qed.

Lemma collectAzureStorageUsage_labels subscriptionId :
  preserves (labelled_as declared) (collectAzureStorageUsage opts api subscriptionId)
    (λ _, True).
Proof.
  unfold collectAzureStorageUsage. apply preserves_for_each. intros location.
  destruct (storage_usage_List api subscriptionId) as [values|err];
    [|apply preserves_panic].
  eapply preserves_bind; [apply preserves_deref|]. intros values' _.
  apply preserves_for_each. intros val. apply setQuota_labels.
Qed.

Lemma collectSubscription_labels subscription :
  preserves (labelled_as declared)
    (collectSubscription opts AZURE_RESOURCEGROUP_TAG_PREFIX ParseFloat api subscription)
    (λ _, True).
Proof.
  unfold collectSubscription.
  eapply preserves_bind; [apply preserves_deref|]. intros subscriptionId _.
  eapply preserves_bind; [apply collectAzureSubscription_labels|]. intros _ _.
  eapply preserves_bind; [apply collectAzureResourceGroup_labels|]. intros _ _.
  eapply preserves_bind; [apply collectAzurePublicIp_labels|]. intros ipAddressList _.
  eapply preserves_bind; [apply collectAzureComputeUsage_labels|]. intros _ _.
  eapply preserves_bind; [apply collectAzureStorageUsage_labels|]. intros _ _.
  by apply preserves_ret.
Qed.

(** Every label set the cycle leaves in a gauge vector names exactly the
    labels [initMetricsAzureRm] declares the vector with, whether the cycle
    returns or panics, provided the registry came so labelled (as the empty
    registry does) and [prefixSlice] puts the prefix before each tag: no
    [With] of a collector is at odds with the declaration of its vector. *)
Theorem cycle_labels_as_declared AzureSubscriptions r :
  labelled_as declared r →
  labelled_as declared
    (final (runMetricsCollectionAzureRm opts AZURE_RESOURCEGROUP_TAG_PREFIX ParseFloat
              api sched AzureSubscriptions r)).
Proof.
  intros Hr.
  assert (preserves (labelled_as declared)
            (runMetricsCollectionAzureRm opts AZURE_RESOURCEGROUP_TAG_PREFIX ParseFloat
               api sched AzureSubscriptions) (λ _, True)) as Hcycle.
  { unfold runMetricsCollectionAzureRm.
    eapply preserves_bind; [apply preserves_Reset|]. intros _ _.
    eapply preserves_bind; [apply preserves_Reset|]. intros _ _.
    eapply (preserves_bind _ _ _ (λ _, True));
      [|intros publicIpChannel _; by apply preserves_ret].
    apply (preserves_fold_each _ (λ _ _, True)); [done|].
    intros _ sent subscription _.
    eapply preserves_bind; [apply collectSubscription_labels|]. intros ipAddressList _.
    by apply preserves_ret. }
  specialize (Hcycle r Hr).
  destruct (runMetricsCollectionAzureRm _ _ _ _ _ _ r) as [l r'|err r']; cbn [final].
  - by destruct Hcycle.
  - done.
Qed.

End declared_labels.

(** The cycle of the scenario, from the empty registry. *)
Lemma cycle_labels_as_declared_witness :
  labelled_as (initMetricsAzureRm prefix_each Scenario.opts "tag_")
    (final (runMetricsCollectionAzureRm Scenario.opts "tag_" Scenario.ParseFloat
              Scenario.api Scenario.in_turn [Scenario.subscription] Scenario.empty_registry)).
Proof.
  apply (cycle_labels_as_declared Scenario.opts "tag_" Scenario.ParseFloat Scenario.api
           Scenario.in_turn prefix_each).
  - reflexivity.
  - intros g labels [v Hv].
    destruct g; destruct (lookup_empty_Some (M:=gmap Labels) labels v Hv).
Defined.

(** ** What a complete cycle leaves in the vectors it resets *)







Section adds_facts.


















End adds_facts.

Section listed.
Context (opts : Opts) (AZURE_RESOURCEGROUP_TAG_PREFIX : string)
  (ParseFloat : string → option float64) (api : AzureApi) (sched : Schedule).










End listed.

